(** * Pre-verbal word-order analysis ([conman/scripts/ud-preverbal.py])

    A shallow embedding of the [script] routine of the repository and of
    its nested subroutines, followed by the properties of the clause
    analysis that the specification states.

    Conventions of the embedding.

    - A Python [str] is a [string] whose characters are the code points
      below 256 (Latin-1); every character of the pattern tables of the
      source lies in that range.
    - A token object is named by its position in the clause (the value
      [an.get_ix_from_tok] reports once [an.reset_ids()] has run); [tok is
      head] is equality of positions and [tok in prefield] is list
      membership of positions.
    - The dictionary [hit.tags] is a finite map from strings to values.
    - A Python exception ends the call; the recursion limit of the
      interpreter is the [depth] argument of the recursive subroutines. *)

From Stdlib Require Import Ascii String DecimalString.
From stdpp Require Import base option list sorting gmap strings.

Open Scope string_scope.

(** ** Strings *)

Module Str.

(** [str.lower()] on the Latin-1 code points: A-Z and the accented capitals
    (192-222 except the multiplication sign 215) move up by 32. *)
Definition lower_char (c : ascii) : ascii :=
  let n := nat_of_ascii c in
  if ((65 <=? n) && (n <=? 90))%nat then ascii_of_nat (n + 32)
  else if ((192 <=? n) && (n <=? 222) && negb (n =? 215))%nat then ascii_of_nat (n + 32)
  else c.

Fixpoint lower (s : string) : string :=
  match s with
  | EmptyString => EmptyString
  | String c r => String (lower_char c) (lower r)
  end.

(** [sep.join(l)] *)
Fixpoint join (sep : string) (l : list string) : string :=
  match l with
  | [] => ""
  | [x] => x
  | x :: r => x ++ sep ++ join sep r
  end.

(** [s.find(sub) > -1]: [sub] occurs in [s]. *)
Fixpoint contains (sub s : string) : bool :=
  String.prefix sub s ||
  match s with
  | EmptyString => false
  | String _ r => contains sub r
  end.

(** [x in l] for a list of strings. *)
Definition mem (x : string) (l : list string) : bool :=
  existsb (String.eqb x) l.

(** [str(i)] for a non-negative integer. *)
Definition of_nat (i : nat) : string :=
  NilEmpty.string_of_uint (Nat.to_uint i).

(** Named code points outside ASCII used by the pattern tables. *)
Definition a_grave : ascii := ascii_of_nat 224.
Definition c_cedilla : ascii := ascii_of_nat 231.
Definition e_acute : ascii := ascii_of_nat 233.
Definition u_grave : ascii := ascii_of_nat 249.

End Str.

(** ** Regular expressions

    The fragment of Python's [re] syntax the script uses: literals,
    character classes, [.], concatenation, alternation, [?] and [*].
    Matching is decided with derivatives; for this fragment the
    backtracking matcher of [re] succeeds exactly on the words of the
    language, so [re.fullmatch] is membership of the whole string and
    [re.match] is membership of some prefix. *)

Module Re.

Inductive regex : Type :=
| Void
| Eps
| Chr (c : ascii)
| Cls (cs : list ascii)
| Dot
| Cat (r1 r2 : regex)
| Alt (r1 r2 : regex)
| Opt (r : regex)
| Star (r : regex).

Fixpoint nullable (r : regex) : bool :=
  match r with
  | Void => false
  | Eps => true
  | Chr _ => false
  | Cls _ => false
  | Dot => false
  | Cat r1 r2 => nullable r1 && nullable r2
  | Alt r1 r2 => nullable r1 || nullable r2
  | Opt _ => true
  | Star _ => true
  end.

Definition newline : ascii := ascii_of_nat 10.

Fixpoint deriv (c : ascii) (r : regex) : regex :=
  match r with
  | Void => Void
  | Eps => Void
  | Chr d => if Ascii.eqb c d then Eps else Void
  | Cls cs => if existsb (Ascii.eqb c) cs then Eps else Void
  | Dot => if Ascii.eqb c newline then Void else Eps
  | Cat r1 r2 =>
      if nullable r1 then Alt (Cat (deriv c r1) r2) (deriv c r2)
      else Cat (deriv c r1) r2
  | Alt r1 r2 => Alt (deriv c r1) (deriv c r2)
  | Opt r1 => deriv c r1
  | Star r1 => Cat (deriv c r1) (Star r1)
  end.

(** [re.fullmatch(r, s)] as a truth value. *)
Fixpoint fullmatch (r : regex) (s : string) : bool :=
  match s with
  | EmptyString => nullable r
  | String c s' => fullmatch (deriv c r) s'
  end.

(** [re.match(r, s)] as a truth value: some prefix of [s] matches. *)
Fixpoint match_ (r : regex) (s : string) : bool :=
  nullable r ||
  match s with
  | EmptyString => false
  | String c s' => match_ (deriv c r) s'
  end.

(** Builders for writing the patterns of the source. *)
Fixpoint lit (s : string) : regex :=
  match s with
  | EmptyString => Eps
  | String c EmptyString => Chr c
  | String c r => Cat (Chr c) (lit r)
  end.

Definition cls (s : string) : regex := Cls (list_ascii_of_string s).

Fixpoint cats (l : list regex) : regex :=
  match l with
  | [] => Eps
  | [r] => r
  | r :: l' => Cat r (cats l')
  end.

Fixpoint alts (l : list regex) : regex :=
  match l with
  | [] => Void
  | [r] => r
  | r :: l' => Alt r (alts l')
  end.

(** Patterns without [.] and [*] have finitely many words; [words] lists
    them. *)
Fixpoint star_free (r : regex) : bool :=
  match r with
  | Void | Eps | Chr _ | Cls _ => true
  | Dot | Star _ => false
  | Cat r1 r2 | Alt r1 r2 => star_free r1 && star_free r2
  | Opt r1 => star_free r1
  end.

Fixpoint words (r : regex) : list string :=
  match r with
  | Void => []
  | Eps => [""]
  | Chr c => [String c ""]
  | Cls cs => List.map (fun c => String c "") cs
  | Dot => []
  | Cat r1 r2 => flat_map (fun a => List.map (String.append a) (words r2)) (words r1)
  | Alt r1 r2 => (words r1 ++ words r2)%list
  | Opt r1 => "" :: words r1
  | Star _ => []
  end.

(** The words of a regular expression, as a relation. *)
Inductive matches : regex -> string -> Prop :=
| m_eps : matches Eps ""
| m_chr c : matches (Chr c) (String c "")
| m_cls c cs : In c cs -> matches (Cls cs) (String c "")
| m_dot c : c <> newline -> matches Dot (String c "")
| m_cat r1 r2 s1 s2 : matches r1 s1 -> matches r2 s2 -> matches (Cat r1 r2) (s1 ++ s2)
| m_alt_l r1 r2 s : matches r1 s -> matches (Alt r1 r2) s
| m_alt_r r1 r2 s : matches r2 s -> matches (Alt r1 r2) s
| m_opt_none r : matches (Opt r) ""
| m_opt_some r s : matches r s -> matches (Opt r) s
| m_star_nil r : matches (Star r) ""
| m_star_cons r s1 s2 : matches r s1 -> matches (Star r) s2 -> matches (Star r) (s1 ++ s2).

End Re.

(** ** Data model *)

(** The tags of a token the script reads ([tok.tags[...]]) and its surface
    form ([str(tok)]). Every token carries the three tags, as the tokens of
    a CoNLL-U clause do: the lookup of a missing tag is not modelled. *)
Record Token : Type := mkToken {
  form : string;
  UPOS : string;
  DEPREL : string;
  FEATS : string
}.

Definition blank : Token := mkToken "" "" "" "".

(** A value of the tag store of a clause: a string or a list of strings. *)
Inductive value : Type :=
| VStr (s : string)
| VList (l : list string).

(** The clause record ([an.hit]): the token sequence, the keywords
    ([hit.kws], the first of which is the anchor) and the tag store
    ([hit.tags]). *)
Record Hit : Type := mkHit {
  toks : list Token;
  kws : list nat;
  tags : gmap string value
}.

(** The tree navigation methods of the annotator object [an], whose class
    is not part of the script: they are parameters of the analysis. A
    missing token (Python [None]) is [None]. *)
Record Navigator : Type := mkNavigator {
  get_parent : nat -> option nat;
  get_children : nat -> list nat;
  get_descendents : nat -> list nat;
  get_next_tok : nat -> option nat
}.

(** Exceptions that end a call. *)
Inductive exn : Type :=
| IndexError       (* hit.kws[0] on an empty keyword list *)
| NavigatorError   (* a navigation method applied to something that is no token of the clause *)
| RecursionError.  (* the recursion limit of the interpreter is exceeded *)

Definition result (A : Type) : Type := (exn + A)%type.

Definition bind {A B : Type} (m : result A) (k : A -> result B) : result B :=
  match m with
  | inl e => inl e
  | inr a => k a
  end.

Notation "'do' x <- m ; k" := (bind m (fun x => k))
  (at level 10, x name, m at level 100, k at level 200).

(** How a call of [script] ends, with the tag store as the call leaves it. *)
Inductive outcome : Type :=
| Returned (store : gmap string value)
| Raised (e : exn) (store : gmap string value).

(** ** Pattern tables *)

Module Pat.
Import Re Str.

(** [r'aux.*|cop'] *)
Definition aux_cop : regex := alts [cats [lit "aux"; Star Dot]; lit "cop"].

(** The global [ADPS_FR]: a lemma and the pattern of its spellings. *)
Definition lemma_a : string := String a_grave "".

Definition ADPS_FR : list (string * regex) :=
  [ (lemma_a, alts [cats [Cls ["a"%char; a_grave]; Opt (cls "uls"); Opt (cls "sx")]; lit "ad"]);
    ("de", alts [cats [Chr "d"; cls "eu'"]; cats [lit "de"; Opt (Chr "l"); Opt (Chr "s")]; lit "dou"]);
    ("en", alts [cats [cls "ea"; cls "nm"]; lit "el"; lit "es"; cats [Opt (Chr "o"); Chr "u"]]);
    ("par", cats [Chr "p"; cls "ae"; Chr "r"]);
    ("pour", cats [Chr "p"; alts [Chr "o"; Chr "u"; lit "ou"]; Chr "r"]) ].

(** Patterns of [_is_c_element_fr]. *)
(* r"k|qu?" *)
Definition c_qu : regex := alts [Chr "k"; cats [Chr "q"; Opt (Chr "u")]].
(* r"cu[iy]" *)
Definition c_cui : regex := cats [lit "cu"; cls "iy"].
(* r"d[ou][nm]" *)
Definition c_dont : regex := cats [Chr "d"; cls "ou"; cls "nm"].
(* r"u|o[uù]?" *)
Definition c_ou : regex := alts [Chr "u"; cats [Chr "o"; Opt (Cls ["u"%char; u_grave])]].
(* r"comm?[ae]nt" *)
Definition c_comment : regex := cats [lit "com"; Opt (Chr "m"); cls "ae"; lit "nt"].
(* r"combien" *)
Definition c_combien : regex := lit "combien".

(** Patterns of [_is_prefield_clitic_fr]. *)
(* r"([mtsl][e']?)|l[aiyou]|l[aeo][sz]|l(o|u|ou|eu)r|lu[iy]" *)
Definition cl_pron : regex :=
  alts [ cats [cls "mtsl"; Opt (cls "e'")];
         cats [Chr "l"; cls "aiyou"];
         cats [Chr "l"; cls "aeo"; cls "sz"];
         cats [Chr "l"; alts [Chr "o"; Chr "u"; lit "ou"; lit "eu"]; Chr "r"];
         cats [lit "lu"; cls "iy"] ].
(* r'nsubj' *)
Definition cl_nsubj : regex := lit "nsubj".
(* r"[nv](o|u|ou)[sz]" *)
Definition cl_nous_vous : regex :=
  cats [cls "nv"; alts [Chr "o"; Chr "u"; lit "ou"]; cls "sz"].
(* r"n[eo']?|ne[lmns]|[ae][nm]|[iy]" *)
Definition cl_adv : regex :=
  alts [ cats [Chr "n"; Opt (cls "eo'")];
         cats [lit "ne"; cls "lmns"];
         cats [cls "ae"; cls "nm"];
         cls "iy" ].

(** Patterns of [_tag_form_fr]. *)
(* r"s[ie'][ls]?" *)
Definition t_si : regex := cats [Chr "s"; cls "ie'"; Opt (cls "ls")].
(* r"[gj][eo']u?[ls]?|gié|tu|[iy]l[sz]?|ell?e?[sz]?|n[ou]u?[sz]|v[ou]u?][sz]"
   (the bracket after [u?] in the last alternative is a literal character) *)
Definition t_prs_nom : regex :=
  alts [ cats [cls "gj"; cls "eo'"; Opt (Chr "u"); Opt (cls "ls")];
         cats [lit "gi"; Chr e_acute];
         lit "tu";
         cats [cls "iy"; Chr "l"; Opt (cls "sz")];
         cats [lit "el"; Opt (Chr "l"); Opt (Chr "e"); Opt (cls "sz")];
         cats [Chr "n"; cls "ou"; Opt (Chr "u"); cls "sz"];
         cats [Chr "v"; cls "ou"; Opt (Chr "u"); Chr "]"; cls "sz"] ].
(* r"[cç][eo']u?" *)
Definition t_dem_ce : regex :=
  cats [Cls ["c"%char; c_cedilla]; cls "eo'"; Opt (Chr "u")].
(* r"[iy]?c[ie](ll?|s|z|st|ste[sz])" *)
Definition t_dem : regex :=
  cats [ Opt (cls "iy"); Chr "c"; cls "ie";
         alts [ cats [Chr "l"; Opt (Chr "l")]; Chr "s"; Chr "z"; lit "st";
                cats [lit "ste"; cls "sz"] ] ].

End Pat.

(** ** The subroutines of [script] *)

Section Script.

(** The arguments of [script]: the annotator [an] (its navigation methods
    and its clause [an.hit], of which [toks] is the token sequence) and the
    language selector [lang]. *)
Variable an : Navigator.
Variable toks : list Token.
Variable lang : string.

(** [tok.tags] and [str(tok)] read the token at a position; a position the
    clause does not contain reads as a token with empty tags. *)
Definition tok_at (tok : nat) : Token := default blank (toks !! tok).

(** Modelled from the spec: [an.get_ix_from_tok], the position-of method
    of the Tree Navigator (position-of(token) → integer). Tokens are named
    by their position, so the method returns its argument for a token of
    the clause; anything else is outside its contract and raises. *)
Definition get_ix_from_tok (tok : nat) : result nat :=
  if (tok <? length toks)%nat then inr tok else inl NavigatorError.

(** [hit[a:b]] on the token sequence, for non-negative bounds. *)
Definition slice (a b : nat) : list nat := drop a (take b (seq 0 (length toks))).

Section Clause.

(** The variables the nested functions capture with [nonlocal]. *)
Variable T : nat.
Variable head : nat.
Variable prefield : list nat.

(** Modelled from the spec: [tok in prefield], the membership of a token
    in the prefield span. The token class and its equality are not part of
    the script; tokens are told apart by their position, and [None] (no
    next token) is in no prefield. *)
Definition in_prefield (tok : nat) : bool := existsb (Nat.eqb tok) prefield.

(** *** Getters *)

Definition get_head : option nat :=
  if Re.fullmatch Pat.aux_cop (DEPREL (tok_at T)) then get_parent an T
  else Some T.

Definition get_w1 (tok : nat) : result nat :=
  let l := get_descendents an tok in
  let l := filter (fun x => UPOS (tok_at x) ≠ "PUNCT") l in
  match l with
  | [] => inr tok
  | l0 :: _ =>
      do i0 <- get_ix_from_tok l0;
      do i <- get_ix_from_tok tok;
      if (i0 <? i)%nat then inr l0 else inr tok
  end.

(** *** Function group 1: detection of special tokens (universal) *)

(** [depth] is the number of nested calls the interpreter still allows;
    [None] stands for the [RecursionError] raised when it is used up. *)
Fixpoint could_be_prefield_clitic (depth : nat) (tok : nat) : option bool :=
  if negb (in_prefield tok) then Some false
  else if negb (bool_decide (get_children an tok = [])) then Some false
  else if negb (Str.mem (UPOS (tok_at tok)) ["PRON"; "ADV"]) then Some false
  else
    match get_next_tok an tok with
    | None => Some true
    | Some next_tok =>
        if in_prefield next_tok then
          match depth with
          | O => None
          | S depth' =>
              match could_be_prefield_clitic depth' next_tok with
              | None => None
              | Some b => if negb b then Some false else Some true
              end
          end
        else Some true
    end.

(** The three tests of [could_be_prefield_clitic] that look at the token
    alone. *)
Definition clitic_shaped (tok : nat) : Prop :=
  in_prefield tok = true /\
  get_children an tok = [] /\
  (UPOS (tok_at tok) = "PRON" \/ UPOS (tok_at tok) = "ADV").

Definition is_dephead (tok : nat) : bool :=
  if (tok =? head)%nat && negb (T =? head)%nat && String.eqb (DEPREL (tok_at T)) "cop"
  then true
  else
    if negb (String.eqb (UPOS (tok_at tok)) "PUNCT")
    then match get_parent an tok with
         | Some p => (p =? head)%nat
         | None => false
         end
    else false.

Definition could_be_c_head (tok : nat) : bool :=
  if negb (in_prefield tok) then false
  else if negb (is_dephead tok) then false
  else if negb (Str.mem (UPOS (tok_at tok)) ["SCONJ"; "PRON"; "ADV"]) then false
  else true.

Definition is_prefield_conjunction (tok : nat) : bool :=
  if negb (in_prefield tok) then false
  else if negb (is_dephead tok) then false
  else if negb (bool_decide (get_children an tok = [])) then false
  else if negb (String.eqb (UPOS (tok_at tok)) "CCONJ") then false
  else true.

Definition is_prefield_interjection (tok : nat) : bool :=
  if negb (in_prefield tok) then false
  else if negb (String.eqb (UPOS (tok_at tok)) "INTJ") then false
  else true.

(** *** Function group 2: detection of special deprels (universal) *)

Definition is_parenthetical (tok : nat) : bool :=
  if negb (is_dephead tok) then false
  else if negb (String.eqb (DEPREL (tok_at tok)) "parataxis") then false
  else if (tok =? head)%nat then false
  else true.

Definition is_vocative (tok : nat) : bool :=
  if negb (is_dephead tok) then false
  else if negb (String.eqb (DEPREL (tok_at tok)) "vocative") then false
  else true.

(** *** Detection of special tokens (language-specific) *)

(** The body of [_is_c_element_fr]; [rec] is the call [is_c_element(parent)].
    The function falls off its end (Python [None], a false value) when the
    part of speech is none of the three [could_be_c_head] lets through. *)
Definition _is_c_element_fr (rec : nat -> option bool) (tok : nat) : option bool :=
  if negb (could_be_c_head tok) then
    match get_parent an tok with
    | Some parent =>
        match rec parent with
        | None => None
        | Some b => Some (if b then true else false)
        end
    | None => Some false
    end
  else
    let s := Str.lower (form (tok_at tok)) in
    if String.eqb (UPOS (tok_at tok)) "SCONJ" then Some true
    else if String.eqb (UPOS (tok_at tok)) "PRON" then
      if Re.match_ Pat.c_qu s then Some true
      else if Re.fullmatch Pat.c_cui s then Some true
      else if Re.match_ Pat.c_dont s then Some true
      else if Re.fullmatch Pat.c_ou s then Some true
      else Some false
    else if String.eqb (UPOS (tok_at tok)) "ADV" then
      if Re.match_ Pat.c_comment s then Some true
      else if Re.match_ Pat.c_combien s then Some true
      else Some false
    else Some false.

Fixpoint is_c_element (depth : nat) (tok : nat) : option bool :=
  if String.eqb lang "french" then
    _is_c_element_fr
      (match depth with
       | O => fun _ => None
       | S depth' => is_c_element depth'
       end) tok
  else Some false.

Definition _is_prefield_clitic_fr (depth : nat) (tok : nat) : option bool :=
  match could_be_prefield_clitic depth tok with
  | None => None
  | Some b =>
      if negb b then Some false
      else
        let s := Str.lower (form (tok_at tok)) in
        if String.eqb (UPOS (tok_at tok)) "PRON" then
          if Re.fullmatch Pat.cl_pron s then Some true
          else if negb (Re.match_ Pat.cl_nsubj (DEPREL (tok_at tok)))
                  && Re.fullmatch Pat.cl_nous_vous s then Some true
          else Some false
        else if String.eqb (UPOS (tok_at tok)) "ADV" then
          if Re.fullmatch Pat.cl_adv s then Some true
          else Some false
        else Some false
  end.

Definition is_prefield_clitic (depth : nat) (tok : nat) : option bool :=
  if String.eqb lang "french" then _is_prefield_clitic_fr depth tok
  else Some false.

(** *** Tagging functions (language-dependent) *)

(** The inner loop of [_tag_p_form_fr]: the lemma of the first pattern of
    [ADPS_FR] the form matches, ['P'] when there is none. *)
Fixpoint adp_lemma (table : list (string * Re.regex)) (s : string) : string :=
  match table with
  | [] => "P"
  | (tag, regex) :: table' =>
      if Re.fullmatch regex s then tag else adp_lemma table' s
  end.

Fixpoint _tag_p_form_fr (children : list nat) : string :=
  match children with
  | [] => ""
  | tok :: children' =>
      if negb (String.eqb (UPOS (tok_at tok)) "ADP")
         || negb (String.eqb (DEPREL (tok_at tok)) "case")
      then _tag_p_form_fr children'
      else adp_lemma Pat.ADPS_FR (Str.lower (form (tok_at tok)))
  end.

(** The children at which the loop of [_tag_p_form_fr] stops: adpositions
    attached by the case relation. *)
Definition case_adposition (tok : nat) : bool :=
  String.eqb (UPOS (tok_at tok)) "ADP" && String.eqb (DEPREL (tok_at tok)) "case".

(** The entries of a lemma table whose pattern matches a form. *)
Definition entry_matches (s : string) (entry : string * Re.regex) : bool :=
  Re.fullmatch (snd entry) s.

(** The cascade of [_tag_form_fr] (the [if]/[elif] chain that sets [tag]). *)
Definition _tag_form_fr_base (tok : nat) : string :=
  let upos := UPOS (tok_at tok) in
  let s := Str.lower (form (tok_at tok)) in
  if String.eqb upos "ADV" && Re.fullmatch Pat.t_si s then "ADVP:si"
  else if String.eqb upos "PRON" && Re.fullmatch Pat.t_prs_nom s then "NP:PRON:Prs:Nom"
  else if String.eqb upos "PRON" && Re.fullmatch Pat.t_dem_ce s then "NP:PRON:Dem:ce"
  else if String.eqb upos "PRON" && Re.fullmatch Pat.t_dem s then "NP:PRON:Dem"
  else if String.eqb upos "PRON" then "NP:PRON"
  else if Str.mem upos ["NOUN"; "PROPN"] then "NP"
  else if String.eqb upos "VERB" && Str.contains "VerbForm=Fin" (FEATS (tok_at tok)) then "TP"
  else if String.eqb upos "VERB" then "VP"
  else if String.eqb upos "ADJ" then "AP"
  else if String.eqb upos "ADV" then "ADVP"
  else "XX".

(** The retagging of prepositional phrases that ends [_tag_form_fr]. *)
Definition retag_pp (P tag : string) : string :=
  if String.eqb P "P" then "PP[" ++ tag ++ "]"
  else if negb (String.eqb P "") then "PP:" ++ P ++ "[" ++ tag ++ "]"
  else tag.

Definition _tag_form_fr (tok : nat) : string :=
  let children := get_children an tok in
  let P := _tag_p_form_fr children in
  let tag := _tag_form_fr_base tok in
  retag_pp P tag.

Definition tag_form (tok : nat) : string :=
  if String.eqb lang "french" then _tag_form_fr tok
  else "".

(** *** The locator loops *)

(** One row of the [zip] the first loop runs over. *)
Definition row : Type := (bool * (bool * (bool * (bool * nat))))%type.

(** The body of the loop that computes [prefield_dephead_status]. *)
Definition dephead_step (l : list bool) (i : nat) (r : row) : list bool :=
  let '(is_interjection, (is_clitic, (is_conjunction, (is_c, tok)))) := r in
  if is_conjunction || is_c then replicate (i + 1) false
  else if is_clitic || is_interjection then l ++ [false]
  else l ++ [is_dephead tok].

(** The row of a conjunction or a complementizer. *)
Definition resets (r : row) : bool :=
  let '(_, (_, (is_conjunction, (is_c, _)))) := r in is_conjunction || is_c.

Fixpoint dephead_loop (rows : list row) (i : nat) (l : list bool) : list bool :=
  match rows with
  | [] => l
  | r :: rows' => dephead_loop rows' (S i) (dephead_step l i r)
  end.

(** The loop that computes [prefield_countable_head_status]. *)
Definition countable_step (r : bool * (bool * (bool * nat))) : bool :=
  let '(parenthetical, (vocative, (dephead, tok))) := r in
  if dephead && negb parenthetical && negb vocative then true else false.

End Clause.

(** *** The tagger loops *)

(** ['T-' + str(i)] followed by ['_form']. *)
Definition rank_key (i : nat) : string := ("T-" ++ Str.of_nat i) ++ "_form".

(** [for i in range(1, 5): hit.tags[key + '_form'] = ''] *)
Definition init_ranks (store : gmap string value) : gmap string value :=
  foldl (fun st i => <[rank_key i := VStr ""]> st) store (seq 1 4).

(** The loop over the reversed zip of the countable-head flags and the
    prefield: the assignments [(i, tok)] for which it reaches the line
    [hit.tags[key + '_form'] = tag_form(tok)], in the order it makes them. *)
Fixpoint rank_loop (l : list (bool * nat)) (i : nat) : list (nat * nat) :=
  match l with
  | [] => []
  | (head_status, tok) :: l' =>
      if negb head_status then rank_loop l' i
      else
        let i := S i in
        if (4 <? i)%nat then rank_loop l' i
        else (i, tok) :: rank_loop l' i
  end.

Definition write_ranks (assignments : list (nat * nat)) (store : gmap string value)
  : gmap string value :=
  foldl (fun st '(i, tok) => <[rank_key i := VStr (tag_form tok)]> st) store assignments.

(** [for status, tok in zip(statuses, prefield): if status: l.append(str(tok))] *)
Definition selected (statuses : list bool) (prefield : list nat) : list nat :=
  snd <$> filter (fun p => fst p = true) (zip statuses prefield).

Definition forms (l : list nat) : list string := (fun tok => form (tok_at tok)) <$> l.

(** The keys [script] assigns in [hit.tags]. *)
Definition written_keys : list string :=
  [ "T-1_form"; "T-2_form"; "T-3_form"; "T-4_form";
    "prefield_clitics"; "prefield_conjunctions"; "prefield_cs";
    "prefield_countable_heads"; "T"; "head"; "w1"; "prefield" ].

(** *** The script *)

(** What the locators compute before the tag store is touched. *)
Record Analysis : Type := mkAnalysis {
  a_T : nat;
  a_head : nat;
  a_w1 : nat;
  a_prefield : list nat;
  a_interjection_status : list bool;
  a_clitic_status : list bool;
  a_conjunction_status : list bool;
  a_c_status : list bool;
  a_dephead_status : list bool;
  a_parenthetical_status : list bool;
  a_vocative_status : list bool;
  a_countable_head_status : list bool
}.

(** A list comprehension over a subroutine that may exceed the recursion
    limit. *)
Definition comprehension (f : nat -> option bool) (l : list nat) : result (list bool) :=
  match mapM f l with
  | Some r => inr r
  | None => inl RecursionError
  end.

(** The locators of [script]: everything up to
    [prefield_countable_head_status]. *)
Definition locate (depth : nat) (kws : list nat) : result Analysis :=
  do T <- match kws with
          | [] => inl IndexError
          | T :: _ => inr T
          end;
  do T_ix <- get_ix_from_tok T;
  match get_head T with
  | None => inl NavigatorError  (* an.get_ix_from_tok(head) without a head *)
  | Some head =>
      do head_ix <- get_ix_from_tok head;
      do w1 <- get_w1 head;
      do w1_ix <- get_ix_from_tok w1;
      let prefield := slice w1_ix T_ix in
      let prefield_interjection_status := is_prefield_interjection prefield <$> prefield in
      do prefield_clitic_status <-
        comprehension (is_prefield_clitic prefield depth) prefield;
      let prefield_conjunction_status :=
        is_prefield_conjunction T head prefield <$> prefield in
      do prefield_c_status <-
        comprehension (is_c_element T head prefield depth) prefield;
      let prefield_dephead_status :=
        dephead_loop T head
          (zip prefield_interjection_status
             (zip prefield_clitic_status
                (zip prefield_conjunction_status
                   (zip prefield_c_status prefield)))) 0 [] in
      let prefield_parenthetical_status := is_parenthetical T head <$> prefield in
      let prefield_vocative_status := is_vocative T head <$> prefield in
      let prefield_countable_head_status :=
        countable_step <$>
          zip prefield_parenthetical_status
            (zip prefield_vocative_status
               (zip prefield_dephead_status prefield)) in
      inr (mkAnalysis T head w1 prefield
             prefield_interjection_status prefield_clitic_status
             prefield_conjunction_status prefield_c_status
             prefield_dephead_status prefield_parenthetical_status
             prefield_vocative_status prefield_countable_head_status)
  end.

(** The assignments of the ranking loop for an analysis. *)
Definition ranked (a : Analysis) : list (nat * nat) :=
  rank_loop (reverse (zip (a_countable_head_status a) (a_prefield a))) 0.

(** The taggers of [script]: the writes to [hit.tags], in program order. *)
Definition write_tags (a : Analysis) (store : gmap string value) : gmap string value :=
  let store := init_ranks store in
  let store := write_ranks (ranked a) store in
  let pf := a_prefield a in
  let store :=
    <["prefield_clitics" := VStr (Str.join " " (forms (selected (a_clitic_status a) pf)))]> store in
  let store :=
    <["prefield_conjunctions" := VStr (Str.join " " (forms (selected (a_conjunction_status a) pf)))]> store in
  let store :=
    <["prefield_cs" := VStr (Str.join " " (forms (selected (a_c_status a) pf)))]> store in
  let store :=
    <["prefield_countable_heads" :=
        VStr (Str.join " " (forms (selected (a_countable_head_status a) pf)))]> store in
  let store := <["T" := VStr (form (tok_at (a_T a)))]> store in
  let store := <["head" := VStr (form (tok_at (a_head a)))]> store in
  let store := <["w1" := VStr (form (tok_at (a_w1 a)))]> store in
  <["prefield" := VList (forms pf)]> store.

End Script.

(** [script(an, lang)], on the clause [hit = an.hit]; [depth] is the
    recursion limit left to the call. The failures modelled are those of
    the locators (no keyword, a token the navigator cannot place, the
    recursion limit), which all precede the first assignment to
    [hit.tags]; the taggers read tags every token carries. *)
Definition script (an : Navigator) (depth : nat) (hit : Hit) (lang : string) : outcome :=
  match locate an (toks hit) lang depth (kws hit) with
  | inl e => Raised e (tags hit)
  | inr a => Returned (write_tags an (toks hit) lang a (tags hit))
  end.

(** What a successful run of the locators has established. *)
Record Located (an : Navigator) (toks : list Token) (lang : string) (depth : nat)
    (kws : list nat) (a : Analysis) : Prop := mkLocated {
  loc_anchor : kws !! 0 = Some (a_T a);
  loc_T_ix : a_T a < length toks;
  loc_head : get_head an toks (a_T a) = Some (a_head a);
  loc_head_ix : a_head a < length toks;
  loc_w1 : get_w1 an toks (a_head a) = inr (a_w1 a);
  loc_w1_ix : a_w1 a < length toks;
  loc_prefield : a_prefield a = slice toks (a_w1 a) (a_T a);
  loc_interjection :
    a_interjection_status a = is_prefield_interjection toks (a_prefield a) <$> a_prefield a;
  loc_clitic :
    mapM (is_prefield_clitic an toks lang (a_prefield a) depth) (a_prefield a)
    = Some (a_clitic_status a);
  loc_conjunction :
    a_conjunction_status a
    = is_prefield_conjunction an toks (a_T a) (a_head a) (a_prefield a) <$> a_prefield a;
  loc_c :
    mapM (is_c_element an toks lang (a_T a) (a_head a) (a_prefield a) depth) (a_prefield a)
    = Some (a_c_status a);
  loc_dephead :
    a_dephead_status a
    = dephead_loop an toks (a_T a) (a_head a)
        (zip (a_interjection_status a)
           (zip (a_clitic_status a)
              (zip (a_conjunction_status a) (zip (a_c_status a) (a_prefield a))))) 0 [];
  loc_parenthetical :
    a_parenthetical_status a = is_parenthetical an toks (a_T a) (a_head a) <$> a_prefield a;
  loc_vocative :
    a_vocative_status a = is_vocative an toks (a_T a) (a_head a) <$> a_prefield a;
  loc_countable :
    a_countable_head_status a
    = countable_step <$>
        zip (a_parenthetical_status a)
          (zip (a_vocative_status a) (zip (a_dephead_status a) (a_prefield a)))
}.

(** ** A navigator over head links

    Modelled from the spec: the Tree Navigator of section 4.1, whose class
    is not part of the script. The tree is given by the position of the
    parent of each token ([None] for a root): parent-of reads the link,
    direct-children-of and all-descendants-of list the positions in clause
    order, next-token-after is the next position of the clause. *)

Module Nav.

Section Links.

Variable heads : list (option nat).

Definition parent (tok : nat) : option nat := mjoin (heads !! tok).

Definition children (tok : nat) : list nat :=
  filter (fun j => parent j = Some tok) (seq 0 (length heads)).

(** [tok] is reached from [j] by following at most [n] parent links. *)
Fixpoint below (n : nat) (j tok : nat) : bool :=
  match n with
  | O => false
  | S n' =>
      match parent j with
      | Some p => (p =? tok)%nat || below n' p tok
      | None => false
      end
  end.

Definition descendents (tok : nat) : list nat :=
  filter (fun j => below (length heads) j tok = true) (seq 0 (length heads)).

Definition next_tok (tok : nat) : option nat :=
  if (S tok <? length heads)%nat then Some (S tok) else None.

Definition of_links : Navigator := mkNavigator parent children descendents next_tok.

End Links.

End Nav.

(** ** The contract of the navigator *)

(** The next token of a token is the one at the next position. *)
Definition next_is_linear (an : Navigator) : Prop :=
  forall tok next_tok, get_next_tok an tok = Some next_tok -> next_tok = S tok.

(** Parentage is acyclic: the parent links strictly decrease a height
    bounded by [n] (the depth of the token in the tree). *)
Definition acyclic_parentage (an : Navigator) (n : nat) : Prop :=
  exists height : nat -> nat,
    (forall tok, height tok <= n) /\
    (forall tok parent, get_parent an tok = Some parent -> height parent < height tok).

(** The navigator answers with tokens of the clause. *)
Definition closed_navigator (an : Navigator) (toks : list Token) : Prop :=
  (forall tok parent, get_parent an tok = Some parent -> parent < length toks) /\
  (forall tok d, d ∈ get_descendents an tok -> d < length toks).

(** Every token of a clause of [n] tokens but the last has the token at
    the next position as its next token. *)
Definition next_is_total (an : Navigator) (n : nat) : Prop :=
  forall tok, S tok < n -> get_next_tok an tok = Some (S tok).

(** The ancestor [k] parent links above a token ([k = 0]: the token). *)
Fixpoint nth_parent (an : Navigator) (k : nat) (tok : nat) : option nat :=
  match k with
  | O => Some tok
  | S k' =>
      match get_parent an tok with
      | Some parent => nth_parent an k' parent
      | None => None
      end
  end.

(** The tags the cascade of [_tag_form_fr] can set. *)
Definition base_tags : list string :=
  [ "ADVP:si"; "NP:PRON:Prs:Nom"; "NP:PRON:Dem:ce"; "NP:PRON:Dem"; "NP:PRON";
    "NP"; "TP"; "VP"; "AP"; "ADVP"; "XX" ].

(** Two tokens that differ at most in the letter case of their form. *)
Definition same_up_to_case (t t' : Token) : Prop :=
  Str.lower (form t) = Str.lower (form t') /\
  UPOS t = UPOS t' /\ DEPREL t = DEPREL t' /\ FEATS t = FEATS t'.

(** A string begins with one of the given words. *)
Definition begins_with (ws : list string) (s : string) : Prop :=
  exists w rest, In w ws /\ s = w ++ rest.

(** ** Example clauses *)

Module Ex.

(** "Hier , Jean a parlé": the anchor is the auxiliary, the head the
    participle. *)
Definition hier_toks : list Token :=
  [ mkToken "Hier" "ADV" "advmod" "";
    mkToken "," "PUNCT" "punct" "";
    mkToken "Jean" "PROPN" "nsubj" "";
    mkToken "a" "AUX" "aux" "VerbForm=Fin";
    mkToken ("parl" ++ String Str.e_acute "") "VERB" "root" "VerbForm=Part" ].

Definition hier_links : list (option nat) :=
  [Some 4; Some 4; Some 4; Some 4; None].

Definition hier_hit : Hit := mkHit hier_toks [3] ∅.

Definition hier_nav : Navigator := Nav.of_links hier_links.

Definition hier_analysis : Analysis :=
  Eval vm_compute in
    match locate hier_nav hier_toks "french" 8 [3] with
    | inr a => a
    | inl _ => mkAnalysis 0 0 0 [] [] [] [] [] [] [] [] []
    end.

(** "Hier et Jean parle": a coordinating conjunction in the prefield. *)
Definition et_toks : list Token :=
  [ mkToken "Hier" "ADV" "advmod" "";
    mkToken "et" "CCONJ" "cc" "";
    mkToken "Jean" "PROPN" "nsubj" "";
    mkToken "parle" "VERB" "root" "VerbForm=Fin" ].

Definition et_links : list (option nat) := [Some 3; Some 3; Some 3; None].

Definition et_nav : Navigator := Nav.of_links et_links.

Definition et_hit : Hit := mkHit et_toks [3] ∅.

Definition et_analysis : Analysis :=
  Eval vm_compute in
    match locate et_nav et_toks "french" 8 [3] with
    | inr a => a
    | inl _ => mkAnalysis 0 0 0 [] [] [] [] [] [] [] [] []
    end.

(** "Jean le lui donne": two clitic pronouns before the verb. *)
Definition clitic_toks : list Token :=
  [ mkToken "Jean" "PROPN" "nsubj" "";
    mkToken "le" "PRON" "obj" "";
    mkToken "lui" "PRON" "iobj" "";
    mkToken "donne" "VERB" "root" "VerbForm=Fin" ].

Definition clitic_links : list (option nat) := [Some 3; Some 3; Some 3; None].

Definition clitic_nav : Navigator := Nav.of_links clitic_links.

(** "vous parlez": a nominative pronoun without dependents. *)
Definition vous_toks : list Token :=
  [ mkToken "vous" "PRON" "nsubj" "";
    mkToken "parlez" "VERB" "root" "VerbForm=Fin" ].

Definition vous_nav : Navigator := Nav.of_links [Some 1; None].

Definition vous_hit : Hit := mkHit vous_toks [1] ∅.

(** "nous parlons" *)
Definition nous_toks : list Token :=
  [ mkToken "nous" "PRON" "nsubj" "";
    mkToken "parlons" "VERB" "root" "VerbForm=Fin" ].

(** "A Jean parle Marie": a noun with a case-marking adposition. *)
Definition a_jean_toks : list Token :=
  [ mkToken (String (ascii_of_nat 192) "") "ADP" "case" "";
    mkToken "Jean" "PROPN" "obl" "";
    mkToken "parle" "VERB" "root" "VerbForm=Fin";
    mkToken "Marie" "PROPN" "nsubj" "" ].

Definition a_jean_nav : Navigator := Nav.of_links [Some 1; Some 2; None; Some 2].

(** A copular clause whose predicate is tagged as punctuation:
    the copula (the anchor) depends on it. *)
Definition punct_toks : list Token :=
  [ mkToken "..." "PUNCT" "root" "";
    mkToken "est" "AUX" "cop" "VerbForm=Fin" ].

Definition punct_nav : Navigator := Nav.of_links [None; Some 0].

Definition punct_hit : Hit := mkHit punct_toks [1] ∅.

(** A clause without keyword. *)
Definition no_anchor_hit : Hit := mkHit hier_toks [] ∅.

(** "parle Jean Marie" with the last two tokens as parents of each other:
    the cycle lies after the anchor. *)
Definition cyclic_toks : list Token :=
  [ mkToken "parle" "VERB" "root" "VerbForm=Fin";
    mkToken "Jean" "PROPN" "nsubj" "";
    mkToken "Marie" "PROPN" "flat" "" ].

Definition cyclic_nav : Navigator := Nav.of_links [None; Some 2; Some 1].

Definition cyclic_hit : Hit := mkHit cyclic_toks [0] ∅.

(** "Hier Jean Marie parle" with the two names as parents of each other:
    the cycle lies in the prefield. *)
Definition cyclic_prefield_toks : list Token :=
  [ mkToken "Hier" "ADV" "advmod" "";
    mkToken "Jean" "PROPN" "nsubj" "";
    mkToken "Marie" "PROPN" "flat" "";
    mkToken "parle" "VERB" "root" "VerbForm=Fin" ].

Definition cyclic_prefield_nav : Navigator :=
  Nav.of_links [Some 3; Some 2; Some 1; None].

Definition cyclic_prefield_hit : Hit := mkHit cyclic_prefield_toks [3] ∅.

(** "nous nous parlons": the subject pronoun and the reflexive clitic. *)
Definition nous_nous_toks : list Token :=
  [ mkToken "nous" "PRON" "nsubj" "";
    mkToken "nous" "PRON" "obj" "";
    mkToken "parlons" "VERB" "root" "VerbForm=Fin" ].

Definition nous_nous_nav : Navigator := Nav.of_links [Some 2; Some 2; None].

(** "HIER , JEAN A parlé": the first clause in capitals. *)
Definition hier_caps_toks : list Token :=
  [ mkToken "HIER" "ADV" "advmod" "";
    mkToken "," "PUNCT" "punct" "";
    mkToken "JEAN" "PROPN" "nsubj" "";
    mkToken "A" "AUX" "aux" "VerbForm=Fin";
    mkToken ("parl" ++ String Str.e_acute "") "VERB" "root" "VerbForm=Part" ].

(** "quelqu'un parle": an indefinite pronoun that begins like a WH word. *)
Definition quelqu_un_toks : list Token :=
  [ mkToken "Quelqu'un" "PRON" "nsubj" "";
    mkToken "parle" "VERB" "root" "VerbForm=Fin" ].

Definition quelqu_un_nav : Navigator := Nav.of_links [Some 1; None].

End Ex.

(** * Properties *)

(** ** The matcher decides the language of a pattern *)

Module ReFacts.
Import Re.

Lemma append_nil_inv (s1 s2 : string) : s1 ++ s2 = "" -> s1 = "" /\ s2 = "".
Proof. destruct s1; [done | discriminate]. Qed.

Lemma append_cons_inv (s1 s2 : string) c s :
  s1 ++ s2 = String c s ->
  (s1 = "" /\ s2 = String c s) \/ (exists s1', s1 = String c s1' /\ s = s1' ++ s2).
Proof.
  destruct s1 as [|c1 s1]; simpl; [by left|].
  intros [= -> <-]. right. eauto.
Qed.

Lemma nullable_matches r : nullable r = true <-> matches r "".
Proof.
  split.
  - induction r; simpl; intros H; try done.
    + constructor.
    + apply andb_true_iff in H as [H1 H2].
      change "" with ("" ++ ""). constructor; auto.
    + apply orb_true_iff in H as [H|H]; [apply m_alt_l | apply m_alt_r]; auto.
    + apply m_opt_none.
    + apply m_star_nil.
  - intros H. remember "" as s eqn:Hs.
    induction H; simpl; try done.
    + apply append_nil_inv in Hs as [-> ->]. by rewrite IHmatches1, IHmatches2.
    + by rewrite IHmatches.
    + rewrite IHmatches by done. apply orb_true_r.
Qed.

Lemma matches_deriv c r : forall s, matches (deriv c r) s -> matches r (String c s).
Proof.
  induction r; simpl; intros s H.
  - inversion H.
  - inversion H.
  - destruct (Ascii.eqb c c0) eqn:E; inversion H; subst.
    apply Ascii.eqb_eq in E as ->. constructor.
  - destruct (existsb (Ascii.eqb c) cs) eqn:E; inversion H; subst.
    apply existsb_exists in E as (d & Hin & Heq). apply Ascii.eqb_eq in Heq as ->.
    by constructor.
  - destruct (Ascii.eqb c newline) eqn:E; inversion H; subst.
    apply Ascii.eqb_neq in E. by constructor.
  - destruct (nullable r1) eqn:N.
    + inversion H as [| | | | | ? ? ? H' | ? ? ? H' | | | |]; subst.
      * inversion H'; subst.
        change (String c (s1 ++ s2)) with (String c s1 ++ s2). constructor; auto.
      * change (String c s) with ("" ++ String c s).
        constructor; [by apply nullable_matches | auto].
    + inversion H; subst.
      change (String c (s1 ++ s2)) with (String c s1 ++ s2). constructor; auto.
  - inversion H; subst; [apply m_alt_l | apply m_alt_r]; auto.
  - apply m_opt_some. auto.
  - inversion H; subst.
    change (String c (s1 ++ s2)) with (String c s1 ++ s2). constructor; auto.
Qed.

Lemma deriv_matches c r s' :
  matches r s' -> forall s, s' = String c s -> matches (deriv c r) s.
Proof.
  induction 1 as [ | d | d cs Hin | d Hd | r1 r2 s1 s2 H1 IH1 H2 IH2
                 | r1 r2 s0 H1 IH1 | r1 r2 s0 H2 IH2 | r0 | r0 s0 H0 IH0 | r0
                 | r0 s1 s2 H1 IH1 H2 IH2 ]; intros s Hs; simpl.
  - done.
  - injection Hs as -> <-. rewrite Ascii.eqb_refl. constructor.
  - injection Hs as -> <-.
    assert (E : existsb (Ascii.eqb c) cs = true).
    { apply existsb_exists. exists c. split; [done | apply Ascii.eqb_refl]. }
    rewrite E. constructor.
  - injection Hs as -> <-. apply Ascii.eqb_neq in Hd. rewrite Hd. constructor.
  - apply append_cons_inv in Hs as [[-> ->] | (s1' & -> & ->)].
    + apply nullable_matches in H1. rewrite H1. apply m_alt_r. by apply IH2.
    + destruct (nullable r1); [apply m_alt_l|]; constructor; auto.
  - apply m_alt_l. auto.
  - apply m_alt_r. auto.
  - done.
  - auto.
  - done.
  - apply append_cons_inv in Hs as [[-> ->] | (s1' & -> & ->)].
    + by apply IH2.
    + constructor; auto.
Qed.

(** [fullmatch] holds exactly for the words of the pattern. *)
Lemma fullmatch_matches s : forall r, fullmatch r s = true <-> matches r s.
Proof.
  induction s as [|c s IH]; intros r; simpl.
  - apply nullable_matches.
  - rewrite IH. split; [apply matches_deriv | intros H; by eapply deriv_matches].
Qed.

(** [match_] holds exactly when a prefix of the string is a word of the
    pattern. *)
Lemma match_matches s : forall r,
  match_ r s = true <-> exists s1 s2, s = s1 ++ s2 /\ matches r s1.
Proof.
  induction s as [|c s IH]; intros r; simpl.
  - rewrite orb_false_r, nullable_matches. split.
    + intros H. by exists "", "".
    + intros (s1 & s2 & Hs & H). symmetry in Hs.
      by apply append_nil_inv in Hs as [-> _].
  - rewrite orb_true_iff, IH, nullable_matches. split.
    + intros [H | (s1 & s2 & -> & H)].
      * by exists "", (String c s).
      * exists (String c s1), s2. split; [done | by apply matches_deriv].
    + intros (s1 & s2 & Hs & H). symmetry in Hs.
      apply append_cons_inv in Hs as [[-> _] | (s1' & -> & ->)]; [by left|].
      right. exists s1', s2. split; [done | by eapply deriv_matches].
Qed.

End ReFacts.

(** ** The first locator loop: boundary reset *)

Section DepheadLoop.

Variable an : Navigator.
Variable toks : list Token.
Variables T head : nat.

Local Abbreviation step := (dephead_step an toks T head).
Local Abbreviation loop := (dephead_loop an toks T head).

Lemma dephead_step_length l i r : length l = i -> length (step l i r) = S i.
Proof.
  intros Hl. destruct r as [ij [cl [cj [c tok]]]]. unfold dephead_step.
  destruct (cj || c); [rewrite length_replicate; lia|].
  destruct (cl || ij); rewrite length_app; simpl; lia.
Qed.

Lemma dephead_step_false l i r j :
  length l = i -> l !! j = Some false -> step l i r !! j = Some false.
Proof.
  intros Hl Hj. destruct r as [ij [cl [cj [c tok]]]]. unfold dephead_step.
  assert (j < i) by (subst i; eauto using lookup_lt_Some).
  destruct (cj || c); [apply lookup_replicate_2; lia|].
  destruct (cl || ij); by apply lookup_app_l_Some.
Qed.

Lemma dephead_step_resets l i r j :
  resets r = true -> j <= i -> step l i r !! j = Some false.
Proof.
  intros Hr Hj. destruct r as [ij [cl [cj [c tok]]]]. simpl in Hr.
  unfold dephead_step. rewrite Hr. apply lookup_replicate_2. lia.
Qed.

Lemma dephead_loop_length rows : forall i l,
  length l = i -> length (loop rows i l) = i + length rows.
Proof.
  induction rows as [|r rows IH]; intros i l Hl; simpl; [lia|].
  rewrite IH; [lia|]. by apply dephead_step_length.
Qed.

Lemma dephead_loop_false rows : forall i l j,
  length l = i -> l !! j = Some false -> loop rows i l !! j = Some false.
Proof.
  induction rows as [|r rows IH]; intros i l j Hl Hj; simpl; [done|].
  apply IH; [by apply dephead_step_length | by apply dephead_step_false].
Qed.

(** Once the loop has met a resetting row at index [k], every flag up to
    and including that index is false in the list it returns. *)
Lemma dephead_loop_resets rows : forall i l k r j,
  length l = i -> rows !! k = Some r -> resets r = true -> j <= i + k ->
  loop rows i l !! j = Some false.
Proof.
  induction rows as [|r0 rows IH]; intros i l k r j Hl Hk Hr Hj; [done|].
  destruct k as [|k]; simpl in *.
  - injection Hk as ->. apply dephead_loop_false; [by apply dephead_step_length|].
    apply dephead_step_resets; [done | lia].
  - apply (IH (S i) _ k r); [by apply dephead_step_length | done | done | lia].
Qed.

End DepheadLoop.

(** ** Selection by flags *)

Lemma elem_of_selected (statuses : list bool) (prefield : list nat) (tok : nat) :
  tok ∈ selected statuses prefield <->
  exists j, statuses !! j = Some true /\ prefield !! j = Some tok.
Proof.
  unfold selected. rewrite list_elem_of_fmap. split.
  - intros [[b t] [-> Hin]]. apply list_elem_of_filter in Hin as [Hb Hin].
    simpl in Hb. subst b. apply list_elem_of_lookup in Hin as [j Hj].
    rewrite lookup_zip_with in Hj.
    destruct (statuses !! j) as [b|] eqn:Hs; [|done].
    destruct (prefield !! j) as [t'|] eqn:Hp; [|done].
    simpl in Hj. injection Hj as -> ->. eauto.
  - intros [j [Hs Hp]]. exists (true, tok). split; [done|].
    apply list_elem_of_filter. split; [done|].
    apply list_elem_of_lookup. exists j.
    rewrite lookup_zip_with, Hs, Hp. done.
Qed.

Lemma selected_false (statuses : list bool) (prefield : list nat) (j tok : nat) :
  NoDup prefield -> statuses !! j = Some false -> prefield !! j = Some tok ->
  tok ∉ selected statuses prefield.
Proof.
  intros Hnd Hs Hp Hin. apply elem_of_selected in Hin as [j' [Hs' Hp']].
  assert (j = j') by (eapply NoDup_lookup; eauto). subst j'. congruence.
Qed.

(** Every assignment of the ranking loop comes from a row whose flag is
    true. *)
Lemma elem_of_rank_loop l : forall i k tok,
  (k, tok) ∈ rank_loop l i -> (true, tok) ∈ l.
Proof.
  induction l as [|[hs t] l IH]; intros i k tok Hin; simpl in Hin.
  - by apply elem_of_nil in Hin.
  - destruct hs; simpl in Hin.
    + destruct (4 <? S i)%nat.
      * apply elem_of_cons. right. eauto.
      * apply elem_of_cons in Hin as [Heq|Hin].
        -- injection Heq as -> ->. apply elem_of_cons. by left.
        -- apply elem_of_cons. right. eauto.
    + apply elem_of_cons. right. eauto.
Qed.

Lemma ranked_selected (a : Analysis) k tok :
  (k, tok) ∈ ranked a -> tok ∈ selected (a_countable_head_status a) (a_prefield a).
Proof.
  unfold ranked. intros Hin. apply elem_of_rank_loop in Hin.
  rewrite elem_of_reverse in Hin. unfold selected.
  apply list_elem_of_fmap. exists (true, tok). split; [done|].
  apply list_elem_of_filter. split; [reflexivity | exact Hin].
Qed.

(** ** The locators *)

Lemma get_ix_from_tok_inr toks tok i :
  get_ix_from_tok toks tok = inr i <-> i = tok /\ tok < length toks.
Proof.
  unfold get_ix_from_tok. destruct (tok <? length toks)%nat eqn:E.
  - apply Nat.ltb_lt in E. split; [intros [= <-]; done | intros [-> _]; done].
  - apply Nat.ltb_ge in E. split; [done | intros [_ ?]; lia].
Qed.

Lemma comprehension_inr f l r : comprehension f l = inr r <-> mapM f l = Some r.
Proof.
  unfold comprehension. destruct (mapM f l); split; intros H; by simplify_eq.
Qed.

(** A run of the locators returns an analysis exactly when the analysis is
    the one the program text describes. *)
Lemma locate_inr an toks lang depth kws a :
  locate an toks lang depth kws = inr a <-> Located an toks lang depth kws a.
Proof.
  unfold locate. split.
  - intros H. destruct kws as [|T kws]; [done|]. simpl in H.
    destruct (get_ix_from_tok toks T) as [|T_ix] eqn:HT; [done|]. simpl in H.
    apply get_ix_from_tok_inr in HT as [-> HT].
    destruct (get_head an toks T) as [head|] eqn:Hh; [|done].
    destruct (get_ix_from_tok toks head) as [|head_ix] eqn:Hhi; [done|]. simpl in H.
    apply get_ix_from_tok_inr in Hhi as [-> Hhi].
    destruct (get_w1 an toks head) as [|w1] eqn:Hw; [done|]. simpl in H.
    destruct (get_ix_from_tok toks w1) as [|w1_ix] eqn:Hwi; [done|]. simpl in H.
    apply get_ix_from_tok_inr in Hwi as [-> Hwi].
    destruct (comprehension (is_prefield_clitic _ _ _ _ _) _) as [|cl] eqn:Hcl; [done|].
    simpl in H. apply comprehension_inr in Hcl.
    destruct (comprehension (is_c_element _ _ _ _ _ _ _) _) as [|cs] eqn:Hcs; [done|].
    simpl in H. apply comprehension_inr in Hcs.
    injection H as <-. by constructor.
  - intros [Hk HT Hh Hhi Hw Hwi Hp Hij Hcl Hcj Hc Hd Hpa Hv Hco].
    destruct a as [T head w1 pf ij cl cj c d pa v co]. simpl in *.
    destruct kws as [|T' kws]; [done|]. simpl in Hk. injection Hk as ->. simpl.
    assert (Hix : forall t, t < length toks -> get_ix_from_tok toks t = inr t)
      by (intros t ?; by apply get_ix_from_tok_inr).
    rewrite (Hix T HT). simpl. rewrite Hh, (Hix head Hhi). simpl.
    rewrite Hw. simpl. rewrite (Hix w1 Hwi). simpl. rewrite <- Hp.
    apply comprehension_inr in Hcl, Hc. rewrite Hcl. simpl. rewrite Hc. simpl.
    rewrite <- Hij, <- Hcj, <- Hd, <- Hpa, <- Hv, <- Hco. done.
Qed.

Lemma slice_lookup toks a b j tok :
  slice toks a b !! j = Some tok <-> tok = a + j /\ tok < b /\ tok < length toks.
Proof.
  unfold slice. rewrite lookup_drop. split.
  - intros H. apply lookup_take_Some in H as [H Hlt].
    apply lookup_seq in H as [-> H]. simpl in *. lia.
  - intros (-> & Hb & Hn). apply lookup_take_Some. split; [|done].
    apply lookup_seq. simpl. lia.
Qed.

Lemma slice_NoDup toks a b : NoDup (slice toks a b).
Proof.
  apply NoDup_alt. intros i j x Hi Hj.
  apply slice_lookup in Hi as (-> & _), Hj as (Hj & _). lia.
Qed.

Lemma slice_length toks a b : length (slice toks a b) = min b (length toks) - a.
Proof. unfold slice. rewrite length_drop, length_take, length_seq. done. Qed.

Section LocatedFacts.

Context {an : Navigator} {toks : list Token} {lang : string} {depth : nat}
        {kws : list nat} {a : Analysis}.
Hypothesis L : Located an toks lang depth kws a.

Lemma located_NoDup : NoDup (a_prefield a).
Proof. rewrite (loc_prefield _ _ _ _ _ _ L). apply slice_NoDup. Qed.

Lemma located_interjection_length :
  length (a_interjection_status a) = length (a_prefield a).
Proof. rewrite (loc_interjection _ _ _ _ _ _ L). apply length_fmap. Qed.

Lemma located_clitic_length : length (a_clitic_status a) = length (a_prefield a).
Proof. symmetry. eapply length_mapM, (loc_clitic _ _ _ _ _ _ L). Qed.

Lemma located_conjunction_length :
  length (a_conjunction_status a) = length (a_prefield a).
Proof. rewrite (loc_conjunction _ _ _ _ _ _ L). apply length_fmap. Qed.

Lemma located_c_length : length (a_c_status a) = length (a_prefield a).
Proof. symmetry. eapply length_mapM, (loc_c _ _ _ _ _ _ L). Qed.

Lemma located_rows_length :
  length (zip (a_interjection_status a)
            (zip (a_clitic_status a)
               (zip (a_conjunction_status a) (zip (a_c_status a) (a_prefield a)))))
  = length (a_prefield a).
Proof.
  rewrite !length_zip_with, located_interjection_length, located_clitic_length,
    located_conjunction_length, located_c_length. lia.
Qed.

Lemma located_dephead_length : length (a_dephead_status a) = length (a_prefield a).
Proof.
  rewrite (loc_dephead _ _ _ _ _ _ L), dephead_loop_length by done.
  simpl. apply located_rows_length.
Qed.

Lemma located_countable_length :
  length (a_countable_head_status a) = length (a_prefield a).
Proof.
  rewrite (loc_countable _ _ _ _ _ _ L), length_fmap, !length_zip_with.
  rewrite located_dephead_length, (loc_parenthetical _ _ _ _ _ _ L),
    (loc_vocative _ _ _ _ _ _ L), !length_fmap. lia.
Qed.

(** A flag of the countable heads is true only where the flag of the first
    loop is. *)
Lemma located_countable_lookup j b :
  a_countable_head_status a !! j = Some b ->
  exists d, a_dephead_status a !! j = Some d /\ (b = true -> d = true).
Proof.
  rewrite (loc_countable _ _ _ _ _ _ L), list_lookup_fmap, !lookup_zip_with.
  intros H.
  destruct (a_parenthetical_status a !! j) as [pa|]; [|done]. simpl in H.
  destruct (a_vocative_status a !! j) as [v|]; [|done]. simpl in H.
  destruct (a_dephead_status a !! j) as [d|]; [|done]. simpl in H.
  destruct (a_prefield a !! j) as [t|]; [|done]. simpl in H.
  injection H as <-. exists d. split; [done|]. by destruct d.
Qed.

End LocatedFacts.

Lemma located_row {an toks lang depth kws a} (L : Located an toks lang depth kws a) i :
  i < length (a_prefield a) ->
  exists ij cl cj c tok,
    a_conjunction_status a !! i = Some cj /\ a_c_status a !! i = Some c /\
    zip (a_interjection_status a)
      (zip (a_clitic_status a)
         (zip (a_conjunction_status a) (zip (a_c_status a) (a_prefield a)))) !! i
    = Some (ij, (cl, (cj, (c, tok)))).
Proof.
  intros Hi.
  destruct (lookup_lt_is_Some_2 (a_interjection_status a) i) as [ij Hij];
    [by rewrite (located_interjection_length L)|].
  destruct (lookup_lt_is_Some_2 (a_clitic_status a) i) as [cl Hcl];
    [by rewrite (located_clitic_length L)|].
  destruct (lookup_lt_is_Some_2 (a_conjunction_status a) i) as [cj Hcj];
    [by rewrite (located_conjunction_length L)|].
  destruct (lookup_lt_is_Some_2 (a_c_status a) i) as [c Hc];
    [by rewrite (located_c_length L)|].
  destruct (lookup_lt_is_Some_2 (a_prefield a) i) as [tok Htok]; [done|].
  exists ij, cl, cj, c, tok. rewrite !lookup_zip_with, Hij, Hcl, Hcj, Hc, Htok. done.
Qed.

(** ** C1: the reset law *)

(** C1. In every analysis, when the prefield token at position [i] is
    classified as a conjunction or as a complementizer, no token at a
    position [j <= i] of the prefield is a countable head: its flag is
    false, it is not in the list of countable heads and the ranking loop
    assigns it none of the ranks. *)
Theorem reset_law an toks lang depth kws a i j :
  locate an toks lang depth kws = inr a ->
  a_conjunction_status a !! i = Some true \/ a_c_status a !! i = Some true ->
  j <= i ->
  a_countable_head_status a !! j = Some false /\
  forall tok, a_prefield a !! j = Some tok ->
    (tok ∉ selected (a_countable_head_status a) (a_prefield a)) /\
    (forall k, (k, tok) ∉ ranked a).
Proof.
  intros Hloc Hreset Hj. apply locate_inr in Hloc as L.
  assert (Hi : i < length (a_prefield a)).
  { destruct Hreset as [H|H]; apply lookup_lt_Some in H.
    - by rewrite <- (located_conjunction_length L).
    - by rewrite <- (located_c_length L). }
  destruct (located_row L i Hi) as (ij & cl & cj & c & t & Hcj & Hc & Hrow).
  assert (Hr : resets (ij, (cl, (cj, (c, t)))) = true).
  { simpl. destruct Hreset as [H|H]; rewrite H in *; simplify_eq;
      [done | by rewrite orb_true_r]. }
  assert (Hd : a_dephead_status a !! j = Some false).
  { rewrite (loc_dephead _ _ _ _ _ _ L).
    eapply dephead_loop_resets; [done | exact Hrow | exact Hr | lia]. }
  assert (Hc0 : a_countable_head_status a !! j = Some false).
  { destruct (lookup_lt_is_Some_2 (a_countable_head_status a) j) as [b Hb].
    { rewrite (located_countable_length L). lia. }
    destruct (located_countable_lookup L j b Hb) as (d & Hd' & Himp).
    rewrite Hd in Hd'. injection Hd' as <-. destruct b; [|done].
    by specialize (Himp eq_refl). }
  split; [done|]. intros tok Htok.
  assert (Hns : tok ∉ selected (a_countable_head_status a) (a_prefield a)).
  { eapply selected_false; [apply (located_NoDup L) | exact Hc0 | exact Htok]. }
  split; [done|]. intros k Hin. apply Hns. by eapply ranked_selected.
Qed.

Lemma reset_law_witness :
  a_countable_head_status Ex.et_analysis !! 0 = Some false /\
  forall tok, a_prefield Ex.et_analysis !! 0 = Some tok ->
    (tok ∉ selected (a_countable_head_status Ex.et_analysis) (a_prefield Ex.et_analysis)) /\
    (forall k, (k, tok) ∉ ranked Ex.et_analysis).
Proof.
  apply (reset_law Ex.et_nav Ex.et_toks "french" 8 [3] Ex.et_analysis 1 0).
  - vm_compute. reflexivity.
  - left. reflexivity.
  - lia.
Defined.

(** ** The ranking loop *)

Lemma rank_loop_zip l : forall i,
  rank_loop l i = zip (seq (S i) (4 - i)) (snd <$> filter (fun p => fst p = true) l).
Proof.
  induction l as [|[hs tok] l IH]; intros i.
  - simpl. by rewrite zip_with_nil_r.
  - destruct hs; cbn [rank_loop negb].
    + rewrite filter_cons_True by done. cbn [fmap list_fmap snd].
      destruct (4 <? S i)%nat eqn:E.
      * apply Nat.ltb_lt in E. rewrite IH.
        replace (4 - S i) with 0 by lia. replace (4 - i) with 0 by lia. done.
      * apply Nat.ltb_ge in E. rewrite IH.
        replace (4 - i) with (S (4 - S i)) by lia. done.
    + rewrite filter_cons_False by (simpl; congruence). apply IH.
Qed.

(** The ranking loop numbers the countable heads from the one nearest the
    verb and stops after four. *)
Lemma ranked_zip (a : Analysis) :
  ranked a
  = zip (seq 1 4) (reverse (selected (a_countable_head_status a) (a_prefield a))).
Proof.
  unfold ranked, selected. by rewrite rank_loop_zip, filter_reverse, fmap_reverse.
Qed.

Lemma elem_of_zip_seq (X : list nat) (k tok : nat) :
  (k, tok) ∈ zip (seq 1 4) X <-> 1 <= k <= 4 /\ X !! (k - 1) = Some tok.
Proof.
  rewrite list_elem_of_lookup. split.
  - intros [idx H]. rewrite lookup_zip_with in H.
    destruct (seq 1 4 !! idx) as [k'|] eqn:Hs; [|done]. simpl in H.
    destruct (X !! idx) as [t|] eqn:HX; [|done]. simpl in H.
    injection H as -> ->. apply lookup_seq in Hs as [-> Hlt].
    replace (1 + idx - 1) with idx by lia. split; [lia | done].
  - intros [Hk HX]. exists (k - 1). rewrite lookup_zip_with, HX.
    assert (Hs : seq 1 4 !! (k - 1) = Some k) by (apply lookup_seq; lia).
    by rewrite Hs.
Qed.

(** ** Order of the countable heads *)

Lemma StronglySorted_lookup_lt (l : list nat) :
  StronglySorted lt l ->
  forall i j x y, i < j -> l !! i = Some x -> l !! j = Some y -> x < y.
Proof.
  induction 1 as [|z l Hs IH Hall]; intros i j x y Hij Hi Hj; [done|].
  destruct j as [|j]; [lia|]. simpl in Hj.
  destruct i as [|i]; simpl in Hi.
  - injection Hi as ->. rewrite Forall_forall in Hall.
    apply Hall. by eapply list_elem_of_lookup_2.
  - eapply (IH i j); [lia | done | done].
Qed.

Lemma lookup_lt_StronglySorted (l : list nat) :
  (forall i j x y, i < j -> l !! i = Some x -> l !! j = Some y -> x < y) ->
  StronglySorted lt l.
Proof.
  induction l as [|z l IH]; intros H; constructor.
  - apply IH. intros i j x y Hij Hi Hj. by apply (H (S i) (S j)); [lia | |].
  - apply Forall_forall. intros y Hy. apply list_elem_of_lookup in Hy as [j Hj].
    by apply (H 0 (S j)); [lia | |].
Qed.

Lemma slice_sorted toks a b : StronglySorted lt (slice toks a b).
Proof.
  apply lookup_lt_StronglySorted. intros i j x y Hij Hi Hj.
  apply slice_lookup in Hi as (-> & _), Hj as (-> & _). lia.
Qed.

Lemma selected_sorted (prefield : list nat) : forall statuses,
  StronglySorted lt prefield -> StronglySorted lt (selected statuses prefield).
Proof.
  induction prefield as [|t pf IH]; intros st Hs.
  - unfold selected. rewrite zip_with_nil_r. constructor.
  - destruct st as [|b st]; [constructor|].
    apply StronglySorted_inv in Hs as [Hs Hall].
    assert (Hsub : Forall (lt t) (selected st pf)).
    { apply Forall_forall. intros x Hx. apply elem_of_selected in Hx as (j & _ & Hj).
      rewrite Forall_forall in Hall. apply Hall. by eapply list_elem_of_lookup_2. }
    unfold selected in *. simpl. destruct b.
    + rewrite filter_cons_True by done. simpl. constructor; [by apply IH | done].
    + rewrite filter_cons_False by (simpl; congruence). by apply IH.
Qed.

Lemma located_heads_sorted {an toks lang depth kws a}
    (L : Located an toks lang depth kws a) :
  StronglySorted lt (selected (a_countable_head_status a) (a_prefield a)).
Proof.
  apply selected_sorted. rewrite (loc_prefield _ _ _ _ _ _ L). apply slice_sorted.
Qed.

(** The number of countable heads is the number of true flags. *)
Lemma selected_length (statuses : list bool) (prefield : list nat) :
  length statuses = length prefield ->
  length (selected statuses prefield) = length (filter (fun b => b = true) statuses).
Proof.
  revert prefield. induction statuses as [|b st IH]; intros [|t pf] Hl; try done.
  injection Hl as Hl. unfold selected in *. simpl. destruct b.
  - rewrite !filter_cons_True by done. simpl. f_equal. by apply IH.
  - rewrite !filter_cons_False by (simpl; congruence). by apply IH.
Qed.

(** ** The tag store *)

Lemma rank_key_values :
  rank_key 1 = "T-1_form" /\ rank_key 2 = "T-2_form" /\
  rank_key 3 = "T-3_form" /\ rank_key 4 = "T-4_form".
Proof. repeat split; reflexivity. Qed.

Lemma rank_key_inj i j :
  1 <= i <= 4 -> 1 <= j <= 4 -> rank_key i = rank_key j -> i = j.
Proof.
  intros Hi Hj.
  assert (Ci : i = 1 \/ i = 2 \/ i = 3 \/ i = 4) by lia.
  assert (Cj : j = 1 \/ j = 2 \/ j = 3 \/ j = 4) by lia.
  destruct Ci as [-> | [-> | [-> | ->]]]; destruct Cj as [-> | [-> | [-> | ->]]];
    vm_compute; congruence.
Qed.

Lemma rank_key_written i : 1 <= i <= 4 -> rank_key i ∈ written_keys.
Proof.
  intros Hi. assert (Ci : i = 1 \/ i = 2 \/ i = 3 \/ i = 4) by lia.
  unfold written_keys.
  destruct Ci as [-> | [-> | [-> | ->]]]; vm_compute rank_key;
    repeat (apply list_elem_of_here || apply list_elem_of_further).
Qed.

Section Store.

Variable an : Navigator.
Variable toks : list Token.
Variable lang : string.

Local Abbreviation write_ranks := (write_ranks an toks lang).
Local Abbreviation tag_form := (tag_form an toks lang).

Lemma write_ranks_frame asg : forall (st : gmap string value) key,
  (forall i tok, (i, tok) ∈ asg -> rank_key i ≠ key) ->
  write_ranks asg st !! key = st !! key.
Proof.
  induction asg as [|[i tok] asg IH]; intros st key H; simpl; [done|].
  rewrite IH.
  - apply lookup_insert_ne. apply (H i tok). apply elem_of_cons. by left.
  - intros i' tok' Hin. apply (H i' tok'). apply elem_of_cons. by right.
Qed.

Lemma write_ranks_zip X : forall s m (st : gmap string value) k,
  1 <= s -> s + m = 5 -> s <= k <= 4 ->
  write_ranks (zip (seq s m) X) st !! rank_key k
  = match X !! (k - s) with
    | Some tok => Some (VStr (tag_form tok))
    | None => st !! rank_key k
    end.
Proof.
  induction X as [|x X IH]; intros s m st k Hs Hm Hk.
  - by rewrite zip_with_nil_r.
  - destruct m as [|m]; [lia|]. simpl.
    destruct (decide (k = s)) as [->|Hne].
    + replace (s - s) with 0 by lia. simpl. rewrite write_ranks_frame.
      * apply lookup_insert_eq.
      * intros i tok Hin Heq. apply list_elem_of_lookup in Hin as [idx Hidx].
        rewrite lookup_zip_with in Hidx.
        destruct (seq (S s) m !! idx) as [i'|] eqn:Hseq; [|done]. simpl in Hidx.
        destruct (X !! idx); [|done]. simpl in Hidx. injection Hidx as -> _.
        apply lookup_seq in Hseq as [-> Hlt].
        apply rank_key_inj in Heq; lia.
    + replace (k - s) with (S (k - S s)) by lia. simpl.
      rewrite (IH (S s) m) by lia.
      destruct (X !! (k - S s)); [done|].
      apply lookup_insert_ne. intros Heq. apply rank_key_inj in Heq; lia.
Qed.

Lemma init_ranks_rank (st : gmap string value) k :
  1 <= k <= 4 -> init_ranks st !! rank_key k = Some (VStr "").
Proof.
  intros Hk. assert (Ck : k = 1 \/ k = 2 \/ k = 3 \/ k = 4) by lia.
  unfold init_ranks. simpl.
  destruct Ck as [-> | [-> | [-> | ->]]]; vm_compute rank_key; by simplify_map_eq.
Qed.

Lemma init_ranks_frame (st : gmap string value) key :
  key ∉ written_keys -> init_ranks st !! key = st !! key.
Proof.
  intros Hk. unfold init_ranks. simpl.
  rewrite !lookup_insert_ne; [done|..];
    intros <-; apply Hk; apply rank_key_written; lia.
Qed.

(** The rank entries after the taggers: the tag of the k-th countable
    head counted from the verb, the empty string when there is none. *)
Lemma write_tags_rank (a : Analysis) (st : gmap string value) k :
  1 <= k <= 4 ->
  write_tags an toks lang a st !! rank_key k
  = Some (VStr match reverse (selected (a_countable_head_status a) (a_prefield a))
                     !! (k - 1) with
               | Some tok => tag_form tok
               | None => ""
               end).
Proof.
  intros Hk. unfold write_tags.
  assert (Ck : k = 1 \/ k = 2 \/ k = 3 \/ k = 4) by lia.
  rewrite !lookup_insert_ne
    by (destruct Ck as [-> | [-> | [-> | ->]]]; vm_compute; congruence).
  rewrite ranked_zip, write_ranks_zip by lia.
  destruct (reverse _ !! (k - 1)); [done|]. by apply init_ranks_rank.
Qed.

(** Keys the script does not assign keep their entry, or their absence. *)
Lemma write_tags_frame (a : Analysis) (st : gmap string value) key :
  key ∉ written_keys -> write_tags an toks lang a st !! key = st !! key.
Proof.
  intros Hk. unfold write_tags.
  rewrite !lookup_insert_ne
    by (intros <-; apply Hk; unfold written_keys; set_solver).
  rewrite write_ranks_frame.
  - by apply init_ranks_frame.
  - intros i tok Hin <-. apply Hk, rank_key_written.
    rewrite ranked_zip in Hin. by apply elem_of_zip_seq in Hin as [? _].
Qed.

Lemma write_tags_written (a : Analysis) (st : gmap string value) key :
  key ∈ written_keys -> is_Some (write_tags an toks lang a st !! key).
Proof.
  intros Hk. unfold written_keys in Hk.
  repeat (apply elem_of_cons in Hk as [->|Hk]);
    [ rewrite <- (proj1 rank_key_values)
    | rewrite <- (proj1 (proj2 rank_key_values))
    | rewrite <- (proj1 (proj2 (proj2 rank_key_values)))
    | rewrite <- (proj2 (proj2 (proj2 rank_key_values)))
    | .. ].
  1-4: rewrite write_tags_rank by lia; eauto.
  9: by apply elem_of_nil in Hk.
  all: unfold write_tags; by simplify_map_eq.
Qed.

End Store.

(** ** Phrase tags of the French module *)

Lemma retag_pp_nonempty P tag : tag ≠ "" -> retag_pp P tag ≠ "".
Proof.
  intros Ht. unfold retag_pp. destruct (String.eqb P "P"); [done|].
  destruct (String.eqb P ""); simpl; done.
Qed.

Lemma _tag_form_fr_base_nonempty toks tok : _tag_form_fr_base toks tok ≠ "".
Proof.
  unfold _tag_form_fr_base.
  repeat match goal with |- context [if ?b then _ else _] => destruct b end; done.
Qed.

Lemma tag_form_french_nonempty an toks tok : tag_form an toks "french" tok ≠ "".
Proof.
  unfold tag_form, _tag_form_fr. simpl.
  apply retag_pp_nonempty, _tag_form_fr_base_nonempty.
Qed.

(** ** C2: cardinality and order of the ranks *)

(** C2. In every analysis with [n] countable heads in the prefield, the
    ranking loop fills exactly [min 4 n] ranks; rank [k] goes to the k-th
    countable head counted from the verb, so rank 1 is the countable head
    nearest the anchor and the token of rank [k] stands at a strictly
    greater clause position than the token of rank [k + 1]; the store
    holds the phrase tag of that token under the key of each filled rank
    (a non-empty tag for French) and the empty string under the keys of
    the ranks beyond [min 4 n]. *)
Theorem rank_assignment an toks lang depth kws a store :
  locate an toks lang depth kws = inr a ->
  length (selected (a_countable_head_status a) (a_prefield a))
  = length (filter (fun b => b = true) (a_countable_head_status a)) /\
  length (ranked a)
  = min 4 (length (selected (a_countable_head_status a) (a_prefield a))) /\
  (forall k tok,
     (k, tok) ∈ ranked a <->
     1 <= k <= 4 /\
     reverse (selected (a_countable_head_status a) (a_prefield a)) !! (k - 1) = Some tok) /\
  (forall tok tok',
     (1, tok) ∈ ranked a ->
     tok' ∈ selected (a_countable_head_status a) (a_prefield a) -> tok' <= tok) /\
  (forall k tok tok', (k, tok) ∈ ranked a -> (S k, tok') ∈ ranked a -> tok' < tok) /\
  (forall k tok,
     (k, tok) ∈ ranked a ->
     write_tags an toks lang a store !! rank_key k = Some (VStr (tag_form an toks lang tok)) /\
     (lang = "french" -> tag_form an toks lang tok ≠ "")) /\
  (forall k,
     min 4 (length (selected (a_countable_head_status a) (a_prefield a))) < k <= 4 ->
     write_tags an toks lang a store !! rank_key k = Some (VStr "")).
Proof.
  intros Hloc. apply locate_inr in Hloc as L.
  set (heads := selected (a_countable_head_status a) (a_prefield a)).
  pose proof (located_heads_sorted L) as Hsorted. fold heads in Hsorted.
  assert (Hmem : forall k tok,
    (k, tok) ∈ ranked a <-> 1 <= k <= 4 /\ reverse heads !! (k - 1) = Some tok).
  { intros k tok. rewrite ranked_zip. apply elem_of_zip_seq. }
  assert (Hrev : forall k tok, (k, tok) ∈ ranked a ->
    k <= length heads /\ heads !! (length heads - k) = Some tok).
  { intros k tok [Hk Hr]%Hmem.
    assert (k - 1 < length heads)
      by (apply lookup_lt_Some in Hr; by rewrite length_reverse in Hr).
    rewrite reverse_lookup in Hr by done.
    replace (length heads - S (k - 1)) with (length heads - k) in Hr by lia.
    split; [lia | done]. }
  split; [|split; [|split; [|split; [|split; [|split]]]]].
  - apply selected_length. apply (located_countable_length L).
  - rewrite ranked_zip, length_zip_with, length_seq, length_reverse. done.
  - exact Hmem.
  - intros tok tok' [H1 Ht]%Hrev [j Hj]%list_elem_of_lookup.
    assert (j < length heads) by (by apply lookup_lt_Some in Hj).
    destruct (decide (j = length heads - 1)) as [->|Hne].
    + rewrite Ht in Hj. injection Hj as ->. lia.
    + apply Nat.lt_le_incl.
      eapply (StronglySorted_lookup_lt heads Hsorted j (length heads - 1)); [lia|done..].
  - intros k tok tok' [Hk Ht]%Hrev [Hk' Ht']%Hrev.
    eapply (StronglySorted_lookup_lt heads Hsorted
              (length heads - S k) (length heads - k)); [lia|done..].
  - intros k tok Hin. split.
    + apply Hmem in Hin as [Hk Hr]. rewrite write_tags_rank by done.
      fold heads. by rewrite Hr.
    + intros ->. apply tag_form_french_nonempty.
  - intros k Hk. rewrite write_tags_rank by lia. fold heads.
    rewrite lookup_ge_None_2; [done|]. rewrite length_reverse. lia.
Qed.

Lemma rank_assignment_witness :
  locate Ex.hier_nav Ex.hier_toks "french" 8 [3] = inr Ex.hier_analysis /\
  length (ranked Ex.hier_analysis) = 2 /\
  ((1, 2) ∈ ranked Ex.hier_analysis <->
   1 <= 1 <= 4 /\
   reverse (selected (a_countable_head_status Ex.hier_analysis)
              (a_prefield Ex.hier_analysis)) !! (1 - 1) = Some 2) /\
  (forall k tok tok',
     (k, tok) ∈ ranked Ex.hier_analysis -> (S k, tok') ∈ ranked Ex.hier_analysis ->
     tok' < tok).
Proof.
  assert (H : locate Ex.hier_nav Ex.hier_toks "french" 8 [3] = inr Ex.hier_analysis)
    by (vm_compute; reflexivity).
  split; [exact H|].
  destruct (rank_assignment Ex.hier_nav Ex.hier_toks "french" 8 [3] Ex.hier_analysis ∅ H)
    as (_ & Hlen & Hmem & _ & Hord & _).
  split; [exact Hlen|]. split; [exact (Hmem 1 2) | exact Hord].
Defined.

(** ** C9: the frame of the tag store *)

(** C9. A call of the script that returns has assigned exactly the twelve
    keys T-1_form, T-2_form, T-3_form, T-4_form, prefield_clitics,
    prefield_conjunctions, prefield_cs, prefield_countable_heads, T, head,
    w1 and prefield: each of them is present afterwards, the four rank
    keys hold a string (the empty string as soon as the first tagger loop
    has run), and every other key has the entry, or the absence, it had
    before the call. *)
Theorem script_frame an depth hit lang store' :
  script an depth hit lang = Returned store' ->
  dom store' = dom (tags hit) ∪ list_to_set written_keys /\
  (forall key, key ∈ written_keys -> is_Some (store' !! key)) /\
  (forall key, key ∉ written_keys -> store' !! key = tags hit !! key) /\
  (forall i, 1 <= i <= 4 ->
     init_ranks (tags hit) !! rank_key i = Some (VStr "") /\
     exists s, store' !! rank_key i = Some (VStr s)).
Proof.
  unfold script. destruct (locate _ _ _ _ _) as [e|a] eqn:Hloc; [done|].
  intros [= <-].
  assert (Hw := write_tags_written an (toks hit) lang a (tags hit)).
  assert (Hf := write_tags_frame an (toks hit) lang a (tags hit)).
  split; [|split; [done|split; [done|]]].
  - apply set_eq. intros key. rewrite elem_of_union, !elem_of_dom, elem_of_list_to_set.
    destruct (decide (key ∈ written_keys)) as [Hin|Hnin].
    + split; [by right | intros _; by apply Hw].
    + rewrite Hf by done. split; [by left | by intros [?|?]].
  - intros i Hi. split; [by apply init_ranks_rank|].
    rewrite write_tags_rank by done. eauto.
Qed.

Lemma script_frame_witness :
  script Ex.hier_nav 8 Ex.hier_hit "french"
  = Returned (write_tags Ex.hier_nav Ex.hier_toks "french" Ex.hier_analysis ∅) /\
  dom (write_tags Ex.hier_nav Ex.hier_toks "french" Ex.hier_analysis ∅)
  = dom (tags Ex.hier_hit) ∪ list_to_set written_keys /\
  (forall key, key ∉ written_keys ->
     write_tags Ex.hier_nav Ex.hier_toks "french" Ex.hier_analysis ∅ !! key
     = tags Ex.hier_hit !! key).
Proof.
  assert (H : script Ex.hier_nav 8 Ex.hier_hit "french"
              = Returned (write_tags Ex.hier_nav Ex.hier_toks "french" Ex.hier_analysis ∅))
    by (vm_compute; reflexivity).
  split; [exact H|].
  destruct (script_frame Ex.hier_nav 8 Ex.hier_hit "french" _ H) as (Hdom & _ & Hfr & _).
  split; [exact Hdom | exact Hfr].
Defined.

(** ** The recursive predicates *)

Lemma in_prefield_elem_of prefield tok : in_prefield prefield tok = true <-> tok ∈ prefield.
Proof.
  unfold in_prefield. rewrite existsb_exists, list_elem_of_In. split.
  - intros [x [Hin Heq]]. apply Nat.eqb_eq in Heq. by subst.
  - intros Hin. exists tok. split; [done | apply Nat.eqb_refl].
Qed.

Lemma in_prefield_slice toks a b tok :
  in_prefield (slice toks a b) tok = true <-> a <= tok < b /\ tok < length toks.
Proof.
  rewrite in_prefield_elem_of, list_elem_of_lookup. split.
  - intros [j Hj]. apply slice_lookup in Hj. lia.
  - intros [[Ha Hb] Hn]. exists (tok - a). apply slice_lookup. lia.
Qed.

Section Clitic.

Variable an : Navigator.
Variable toks : list Token.
Variable prefield : list nat.

Local Abbreviation clitic := (could_be_prefield_clitic an toks prefield).
Local Abbreviation clitic_shaped := (clitic_shaped an toks prefield).

Lemma clitic_shaped_tests tok :
  clitic_shaped tok <->
  negb (in_prefield prefield tok) = false /\
  negb (bool_decide (get_children an tok = [])) = false /\
  negb (Str.mem (UPOS (tok_at toks tok)) ["PRON"; "ADV"]) = false.
Proof.
  unfold clitic_shaped, Str.mem. simpl.
  rewrite !negb_false_iff, bool_decide_eq_true, orb_false_r, orb_true_iff,
    !String.eqb_eq. done.
Qed.

(** One unfolding of the function, with the recursive call named. *)
Lemma clitic_unfold depth tok :
  clitic depth tok
  = if negb (in_prefield prefield tok) then Some false
    else if negb (bool_decide (get_children an tok = [])) then Some false
    else if negb (Str.mem (UPOS (tok_at toks tok)) ["PRON"; "ADV"]) then Some false
    else match get_next_tok an tok with
         | None => Some true
         | Some next_tok =>
             if in_prefield prefield next_tok then
               match depth with
               | O => None
               | S depth' =>
                   match clitic depth' next_tok with
                   | None => None
                   | Some b => Some b
                   end
               end
             else Some true
         end.
Proof.
  destruct depth; simpl; repeat case_match; simplify_eq; try done.
  all: by match goal with b : bool |- _ => destruct b end.
Qed.

(** A call that returns within some depth returns the same at any greater
    depth. *)
Lemma clitic_mono depth : forall tok b depth',
  clitic depth tok = Some b -> depth <= depth' -> clitic depth' tok = Some b.
Proof.
  induction depth as [|d IH]; intros tok b d' H Hle;
    rewrite clitic_unfold in H; rewrite clitic_unfold;
    (destruct (negb (in_prefield prefield tok)); [done|]);
    (destruct (negb (bool_decide _)); [done|]);
    (destruct (negb (Str.mem _ _)); [done|]);
    (destruct (get_next_tok an tok) as [nt|]; [|done]);
    (destruct (in_prefield prefield nt); [|done]).
  - done.
  - destruct d' as [|d']; [lia|].
    destruct (clitic d nt) as [b'|] eqn:Hrec; [|done].
    rewrite (IH nt b' d' Hrec) by lia. done.
Qed.

(** The recursion moves to the next position and stays inside the
    prefield, so it ends once the depth covers what is left of a clause of
    [n] tokens. *)
Lemma clitic_terminates n :
  next_is_linear an ->
  (forall x, in_prefield prefield x = true -> x < n) ->
  forall depth tok, n <= depth + tok + 1 -> is_Some (clitic depth tok).
Proof.
  intros Hnext Hbound. induction depth as [|d IH]; intros tok Hn;
    rewrite clitic_unfold; repeat case_match; simplify_eq; eauto.
  - match goal with
    | H : get_next_tok an tok = Some ?t, H' : in_prefield prefield ?t = true |- _ =>
        apply Hnext in H; subst; apply Hbound in H'; lia
    end.
  - match goal with
    | H : get_next_tok an tok = Some ?t, H' : clitic d ?t = None |- _ =>
        apply Hnext in H; subst; destruct (IH (S tok)) as [? ?]; [lia | congruence]
    end.
Qed.

(** The defining equivalence, for a call that returns. *)
Lemma clitic_chain_returned depth tok :
  is_Some (clitic depth tok) ->
  (clitic depth tok = Some true <->
   clitic_shaped tok /\
   forall next_tok,
     get_next_tok an tok = Some next_tok -> in_prefield prefield next_tok = true ->
     clitic depth next_tok = Some true).
Proof.
  intros [b Hb]. rewrite clitic_shaped_tests. split.
  - intros Ht. rewrite clitic_unfold in Ht.
    destruct (negb (in_prefield prefield tok)); [done|].
    destruct (negb (bool_decide _)); [done|].
    destruct (negb (Str.mem _ _)); [done|].
    split; [done|]. intros nt Hnt Hin. rewrite Hnt, Hin in Ht.
    destruct depth as [|d]; [done|].
    destruct (clitic d nt) as [b'|] eqn:Hrec; [|done]. injection Ht as ->.
    by apply (clitic_mono d nt true (S d)); [|lia].
  - intros [(H1 & H2 & H3) Hnext]. rewrite clitic_unfold, H1, H2, H3.
    rewrite clitic_unfold, H1, H2, H3 in Hb.
    destruct (get_next_tok an tok) as [nt|]; [|done].
    destruct (in_prefield prefield nt) eqn:Hin; [|done].
    destruct depth as [|d]; [done|].
    destruct (clitic d nt) as [b'|] eqn:Hrec; [|done].
    specialize (Hnext nt eq_refl Hin).
    rewrite (clitic_mono d nt b' (S d) Hrec) in Hnext by lia. done.
Qed.

End Clitic.

Lemma of_links_next_is_linear heads : next_is_linear (Nav.of_links heads).
Proof.
  intros tok nt. simpl. unfold Nav.next_tok.
  destruct (S tok <? length heads)%nat; [by intros [= <-] | done].
Qed.

(** ** C3: the clitic chain *)

(** C3. Under the navigator contract (the next token is the one at the
    next position) and with the recursion depth a clause allows,
    [could_be_prefield_clitic] returns, and it returns true exactly when
    the token is in the prefield, has no children, is a pronoun or an
    adverb and, whenever the next token is also in the prefield, that next
    token satisfies [could_be_prefield_clitic] itself; in particular a
    token passing the first three tests whose next token lies in the
    prefield and fails the predicate fails it too. *)
Theorem clitic_chain an toks a b depth tok :
  next_is_linear an ->
  length toks <= depth ->
  is_Some (could_be_prefield_clitic an toks (slice toks a b) depth tok) /\
  (could_be_prefield_clitic an toks (slice toks a b) depth tok = Some true <->
   clitic_shaped an toks (slice toks a b) tok /\
   forall next_tok,
     get_next_tok an tok = Some next_tok ->
     in_prefield (slice toks a b) next_tok = true ->
     could_be_prefield_clitic an toks (slice toks a b) depth next_tok = Some true) /\
  (clitic_shaped an toks (slice toks a b) tok ->
   forall next_tok,
     get_next_tok an tok = Some next_tok ->
     in_prefield (slice toks a b) next_tok = true ->
     could_be_prefield_clitic an toks (slice toks a b) depth next_tok = Some false ->
     could_be_prefield_clitic an toks (slice toks a b) depth tok = Some false).
Proof.
  intros Hnext Hdepth.
  assert (Hret : is_Some (could_be_prefield_clitic an toks (slice toks a b) depth tok)).
  { apply (clitic_terminates an toks _ (length toks)); [done | | lia].
    intros x Hx. apply in_prefield_slice in Hx. lia. }
  pose proof (clitic_chain_returned an toks (slice toks a b) depth tok Hret) as Hiff.
  split; [done|]. split; [done|].
  intros Hshape nt Hnt Hin Hfalse. destruct Hret as [[|] Hb]; [|done].
  apply Hiff in Hb as [_ Hb]. specialize (Hb nt Hnt Hin). congruence.
Qed.

Lemma clitic_chain_witness :
  next_is_linear Ex.clitic_nav /\
  length Ex.clitic_toks <= 8 /\
  is_Some (could_be_prefield_clitic Ex.clitic_nav Ex.clitic_toks
             (slice Ex.clitic_toks 0 3) 8 1) /\
  (could_be_prefield_clitic Ex.clitic_nav Ex.clitic_toks (slice Ex.clitic_toks 0 3) 8 1
   = Some true <->
   clitic_shaped Ex.clitic_nav Ex.clitic_toks (slice Ex.clitic_toks 0 3) 1 /\
   forall next_tok,
     get_next_tok Ex.clitic_nav 1 = Some next_tok ->
     in_prefield (slice Ex.clitic_toks 0 3) next_tok = true ->
     could_be_prefield_clitic Ex.clitic_nav Ex.clitic_toks (slice Ex.clitic_toks 0 3) 8
       next_tok = Some true).
Proof.
  assert (H1 : next_is_linear Ex.clitic_nav) by apply of_links_next_is_linear.
  assert (H2 : length Ex.clitic_toks <= 8) by (vm_compute; lia).
  split; [exact H1|]. split; [exact H2|].
  destruct (clitic_chain Ex.clitic_nav Ex.clitic_toks 0 3 8 1 H1 H2) as (Hs & Hiff & _).
  split; [exact Hs | exact Hiff].
Defined.

(** ** Complementizer inheritance *)

Section CElement.

Variable an : Navigator.
Variable toks : list Token.
Variable lang : string.
Variables T head : nat.
Variable prefield : list nat.

Local Abbreviation c_element := (is_c_element an toks lang T head prefield).
Local Abbreviation c_head := (could_be_c_head an toks T head prefield).

Lemma is_c_element_unfold depth tok :
  c_element depth tok
  = if String.eqb lang "french" then
      _is_c_element_fr an toks T head prefield
        (match depth with
         | O => fun _ => None
         | S depth' => c_element depth'
         end) tok
    else Some false.
Proof. by destruct depth. Qed.

(** What the French test answers for a token that passes the structural
    gate: no recursion is involved. *)
Lemma _is_c_element_fr_gate rec tok :
  c_head tok = true ->
  is_Some (_is_c_element_fr an toks T head prefield rec tok).
Proof.
  intros Hc. unfold _is_c_element_fr. rewrite Hc. simpl.
  repeat case_match; eauto.
Qed.

(** The recursion climbs the parent links, so it ends once the depth
    covers the height of the token. *)
Lemma is_c_element_terminates (height : nat -> nat) :
  (forall tok parent, get_parent an tok = Some parent -> height parent < height tok) ->
  forall depth tok, height tok <= depth -> is_Some (c_element depth tok).
Proof.
  intros Hh. induction depth as [|d IH]; intros tok Hd;
    rewrite is_c_element_unfold; (destruct (String.eqb lang "french"); [|eauto]);
    (destruct (c_head tok) eqn:Hc; [by apply _is_c_element_fr_gate|]);
    unfold _is_c_element_fr; rewrite Hc; simpl;
    (destruct (get_parent an tok) as [p|] eqn:Hp; [|eauto]);
    apply Hh in Hp.
  - lia.
  - destruct (IH p) as [b Hb]; [lia|]. rewrite Hb. eauto.
Qed.

End CElement.

(** ** Failures of the locators *)

Lemma comprehension_inl f l e :
  comprehension f l = inl e -> e = RecursionError /\ exists x, x ∈ l /\ f x = None.
Proof.
  unfold comprehension. destruct (mapM f l) eqn:Hm; [done|]. intros [= <-].
  split; [done|]. apply mapM_None in Hm. by apply Exists_exists in Hm.
Qed.

Lemma get_ix_from_tok_inl toks tok e :
  get_ix_from_tok toks tok = inl e -> e = NavigatorError.
Proof. unfold get_ix_from_tok. case_match; congruence. Qed.

Lemma get_w1_inl an toks tok e : get_w1 an toks tok = inl e -> e = NavigatorError.
Proof.
  unfold get_w1, bind, get_ix_from_tok. repeat case_match; congruence.
Qed.

Lemma is_prefield_clitic_None an toks lang prefield depth tok :
  is_prefield_clitic an toks lang prefield depth tok = None ->
  lang = "french" /\ could_be_prefield_clitic an toks prefield depth tok = None.
Proof.
  unfold is_prefield_clitic, _is_prefield_clitic_fr.
  destruct (String.eqb lang "french") eqn:E; [|done].
  apply String.eqb_eq in E. destruct (could_be_prefield_clitic _ _ _ _ _); [|done].
  repeat case_match; done.
Qed.

(** The only recursion errors of the locators come from the two recursive
    predicates, applied to a token of the prefield. *)
Lemma locate_recursion_error an toks lang depth kws :
  locate an toks lang depth kws = inl RecursionError ->
  exists T head a b tok,
    could_be_prefield_clitic an toks (slice toks a b) depth tok = None \/
    is_c_element an toks lang T head (slice toks a b) depth tok = None.
Proof.
  unfold locate, bind. intros H.
  destruct kws as [|T kws]; [done|].
  destruct (get_ix_from_tok toks T) as [e|T_ix] eqn:HT;
    [apply get_ix_from_tok_inl in HT; simpl in H; congruence|].
  destruct (get_head an toks T) as [head|]; [|done].
  destruct (get_ix_from_tok toks head) as [e|head_ix] eqn:Hh;
    [apply get_ix_from_tok_inl in Hh; simpl in H; congruence|].
  destruct (get_w1 an toks head) as [e|w1] eqn:Hw;
    [apply get_w1_inl in Hw; simpl in H; congruence|].
  destruct (get_ix_from_tok toks w1) as [e|w1_ix] eqn:Hwi;
    [apply get_ix_from_tok_inl in Hwi; simpl in H; congruence|].
  destruct (comprehension (is_prefield_clitic _ _ _ _ _) _) as [e|cl] eqn:Hcl.
  { apply comprehension_inl in Hcl as (_ & tok & _ & Htok).
    apply is_prefield_clitic_None in Htok as [_ Htok].
    exists T, head, w1_ix, T_ix, tok. by left. }
  destruct (comprehension (is_c_element _ _ _ _ _ _ _) _) as [e|cs] eqn:Hcs; [|done].
  apply comprehension_inl in Hcs as (_ & tok & _ & Htok).
  exists T, head, w1_ix, T_ix, tok. by right.
Qed.

(** ** C10: termination of the recursive predicates *)

(** With enough depth neither recursive predicate runs out of it. *)
Lemma recursive_predicates_return an toks lang n T head a b depth :
  next_is_linear an ->
  acyclic_parentage an n ->
  length toks <= depth ->
  n <= depth ->
  (forall tok, is_Some (could_be_prefield_clitic an toks (slice toks a b) depth tok)) /\
  (forall tok, is_Some (is_c_element an toks lang T head (slice toks a b) depth tok)) /\
  (forall kws, locate an toks lang depth kws ≠ inl RecursionError).
Proof.
  intros Hnext (height & Hbound & Hacyc) Hlen Hn.
  assert (Hcl : forall a b tok,
    is_Some (could_be_prefield_clitic an toks (slice toks a b) depth tok)).
  { intros a' b' tok. apply (clitic_terminates an toks _ (length toks)); [done | | lia].
    intros x Hx. apply in_prefield_slice in Hx. lia. }
  assert (Hc : forall T head prefield tok,
    is_Some (is_c_element an toks lang T head prefield depth tok)).
  { intros T' head' pf tok. apply (is_c_element_terminates _ _ _ _ _ _ height Hacyc).
    specialize (Hbound tok). lia. }
  split; [done|]. split; [done|].
  intros kws Herr. apply locate_recursion_error in Herr
    as (T' & head' & a' & b' & tok & [Herr|Herr]).
  - destruct (Hcl a' b' tok) as [? ?]. congruence.
  - destruct (Hc T' head' (slice toks a' b') tok) as [? ?]. congruence.
Qed.

(** C10. For a clause whose navigator moves to the next position with
    next-token and whose parent links are acyclic (they strictly decrease
    a height bounded by [n]), both recursive predicates return for every
    token once the recursion depth covers the clause:
    [could_be_prefield_clitic] recurses on the next token inside the
    prefield and [is_c_element] on the parent; hence the locators never
    end in a recursion error. *)
Theorem recursion_terminates an toks lang n T head a b depth :
  next_is_linear an ->
  acyclic_parentage an n ->
  length toks <= depth ->
  n <= depth ->
  (forall tok, is_Some (could_be_prefield_clitic an toks (slice toks a b) depth tok)) /\
  (forall tok, is_Some (is_c_element an toks lang T head (slice toks a b) depth tok)) /\
  (forall kws, locate an toks lang depth kws ≠ inl RecursionError).
Proof. apply recursive_predicates_return. Qed.

(** Under the preconditions of the analysis (an anchor in the clause, a
    parent for an auxiliary or copula anchor, a navigator that answers with
    tokens of the clause, linear next-token, acyclic parentage and enough
    recursion depth) the locators yield an analysis and the call returns. *)
Lemma locate_returns an toks lang n depth kws T :
  next_is_linear an ->
  acyclic_parentage an n ->
  closed_navigator an toks ->
  length toks <= depth ->
  n <= depth ->
  kws !! 0 = Some T ->
  T < length toks ->
  (Re.fullmatch Pat.aux_cop (DEPREL (tok_at toks T)) = true -> is_Some (get_parent an T)) ->
  exists a, locate an toks lang depth kws = inr a.
Proof.
  intros Hnext Hacyc [Hpar Hdesc] Hlen Hn Hk HT Haux.
  pose proof (recursive_predicates_return an toks lang n) as Hterm.
  assert (Hix : forall t, t < length toks -> get_ix_from_tok toks t = inr t)
    by (intros t ?; by apply get_ix_from_tok_inr).
  assert (Hhead : exists head, get_head an toks T = Some head /\ head < length toks).
  { unfold get_head. destruct (Re.fullmatch _ _); [|eauto].
    destruct Haux as [p Hp]; [done|]. rewrite Hp. eauto. }
  destruct Hhead as (head & Hh & Hhi).
  assert (Hw1 : exists w1, get_w1 an toks head = inr w1 /\ w1 < length toks).
  { unfold get_w1.
    destruct (filter _ (get_descendents an head)) as [|l0 l] eqn:Hf; [eauto|].
    assert (l0 < length toks).
    { apply (Hdesc head).
      assert (Hin : l0 ∈ filter (fun x => UPOS (tok_at toks x) ≠ "PUNCT")
                           (get_descendents an head))
        by (rewrite Hf; apply list_elem_of_here).
      by apply list_elem_of_filter in Hin as [_ ?]. }
    rewrite (Hix l0), (Hix head) by done. simpl. destruct (l0 <? head)%nat; eauto. }
  destruct Hw1 as (w1 & Hw & Hwi).
  destruct (locate an toks lang depth kws) as [e|a] eqn:Hloc; [|eauto].
  exfalso. unfold locate, bind in Hloc.
  destruct kws as [|T' kws]; [done|]. simpl in Hk. injection Hk as ->.
  rewrite (Hix T HT), Hh, (Hix head Hhi), Hw, (Hix w1 Hwi) in Hloc.
  destruct (Hterm T head w1 T depth Hnext Hacyc Hlen Hn) as (Hcl & Hc & _).
  destruct (comprehension (is_prefield_clitic _ _ _ _ _) _) as [e'|cl] eqn:Ecl.
  { apply comprehension_inl in Ecl as (_ & tok & _ & Htok).
    apply is_prefield_clitic_None in Htok as [_ Htok].
    destruct (Hcl tok) as [? ?]. congruence. }
  destruct (comprehension (is_c_element _ _ _ _ _ _ _) _) as [e'|cs] eqn:Ecs; [|done].
  apply comprehension_inl in Ecs as (_ & tok & _ & Htok).
  destruct (Hc tok) as [? ?]. congruence.
Qed.

Lemma et_acyclic : acyclic_parentage Ex.et_nav 4.
Proof.
  exists (fun tok => if (tok =? 3)%nat then 0 else 1). split.
  - intros tok. destruct (tok =? 3)%nat; lia.
  - intros [|[|[|[|tok]]]] parent H; vm_compute in H; simplify_eq; simpl; lia.
Defined.

Lemma recursion_terminates_witness :
  next_is_linear Ex.et_nav /\
  acyclic_parentage Ex.et_nav 4 /\
  length Ex.et_toks <= 8 /\
  4 <= 8 /\
  (forall tok,
     is_Some (could_be_prefield_clitic Ex.et_nav Ex.et_toks (slice Ex.et_toks 0 3) 8 tok)) /\
  (forall tok,
     is_Some (is_c_element Ex.et_nav Ex.et_toks "french" 3 3 (slice Ex.et_toks 0 3) 8 tok)) /\
  (forall kws, locate Ex.et_nav Ex.et_toks "french" 8 kws ≠ inl RecursionError).
Proof.
  assert (H1 : next_is_linear Ex.et_nav) by apply of_links_next_is_linear.
  assert (H2 : acyclic_parentage Ex.et_nav 4) by apply et_acyclic.
  assert (H3 : length Ex.et_toks <= 8) by (vm_compute; lia).
  assert (H4 : 4 <= 8) by lia.
  split; [exact H1|]. split; [exact H2|]. split; [exact H3|]. split; [exact H4|].
  exact (recursion_terminates Ex.et_nav Ex.et_toks "french" 4 3 3 0 3 8 H1 H2 H3 H4).
Defined.

(** ** C4: an unrecognized language selector *)

Lemma comprehension_false f l :
  (forall x, f x = Some false) -> comprehension f l = inr (replicate (length l) false).
Proof.
  intros Hf. apply comprehension_inr. induction l as [|x l IH]; [done|].
  simpl. rewrite Hf. simpl. by rewrite IH.
Qed.

Section Unsupported.

Variable an : Navigator.
Variable toks : list Token.
Variable lang : string.
Hypothesis Hlang : lang ≠ "french".

Lemma unsupported_eqb : String.eqb lang "french" = false.
Proof. by apply String.eqb_neq. Qed.

Lemma unsupported_c_element T head prefield depth tok :
  is_c_element an toks lang T head prefield depth tok = Some false.
Proof. by rewrite is_c_element_unfold, unsupported_eqb. Qed.

Lemma unsupported_clitic prefield depth tok :
  is_prefield_clitic an toks lang prefield depth tok = Some false.
Proof. unfold is_prefield_clitic. by rewrite unsupported_eqb. Qed.

Lemma unsupported_tag_form tok : tag_form an toks lang tok = "".
Proof. unfold tag_form. by rewrite unsupported_eqb. Qed.

(** The locators fail for the unrecognized language only where they fail
    for any language: before the classification starts. *)
Lemma unsupported_locate_inl depth kws e :
  locate an toks lang depth kws = inl e ->
  e ≠ RecursionError /\ forall lang' depth', locate an toks lang' depth' kws = inl e.
Proof.
  unfold locate, bind. intros H.
  destruct kws as [|T kws]; [by simplify_eq|].
  destruct (get_ix_from_tok toks T) as [e'|T_ix] eqn:HT.
  { apply get_ix_from_tok_inl in HT. by simplify_eq. }
  destruct (get_head an toks T) as [head|]; [|by simplify_eq].
  destruct (get_ix_from_tok toks head) as [e'|head_ix] eqn:Hh.
  { apply get_ix_from_tok_inl in Hh. by simplify_eq. }
  destruct (get_w1 an toks head) as [e'|w1] eqn:Hw.
  { apply get_w1_inl in Hw. by simplify_eq. }
  destruct (get_ix_from_tok toks w1) as [e'|w1_ix] eqn:Hwi.
  { apply get_ix_from_tok_inl in Hwi. by simplify_eq. }
  rewrite comprehension_false in H by (intros; apply unsupported_clitic).
  rewrite comprehension_false in H by (intros; apply unsupported_c_element).
  done.
Qed.

End Unsupported.

(** C4. With a language selector other than the recognized one,
    complementizer detection and clitic detection answer false for every
    token and every phrase tag is the empty string, so all four rank
    entries are empty; the call is not an error for that reason (the
    locators fail only where they fail for every language, never by
    recursion); and wherever the recognized language yields an analysis,
    the unrecognized one yields the analysis with the same anchor, head,
    leftmost word, prefield and conjunction, interjection, parenthetical
    and vocative flags, with all-false clitic and complementizer flags,
    and with dephead and countable-head flags computed by the same two
    loops from those flags (they coincide with the recognized language's
    when its lexical flags are all false as well). *)
Theorem unsupported_language an toks lang depth kws :
  lang ≠ "french" ->
  (forall T head prefield d tok,
     is_c_element an toks lang T head prefield d tok = Some false) /\
  (forall prefield d tok, is_prefield_clitic an toks lang prefield d tok = Some false) /\
  (forall tok, tag_form an toks lang tok = "") /\
  (forall a store k,
     1 <= k <= 4 -> write_tags an toks lang a store !! rank_key k = Some (VStr "")) /\
  (forall e,
     locate an toks lang depth kws = inl e ->
     e ≠ RecursionError /\ locate an toks "french" depth kws = inl e) /\
  (forall a',
     locate an toks "french" depth kws = inr a' ->
     exists a,
       locate an toks lang depth kws = inr a /\
       a_T a = a_T a' /\ a_head a = a_head a' /\ a_w1 a = a_w1 a' /\
       a_prefield a = a_prefield a' /\
       a_interjection_status a = a_interjection_status a' /\
       a_conjunction_status a = a_conjunction_status a' /\
       a_parenthetical_status a = a_parenthetical_status a' /\
       a_vocative_status a = a_vocative_status a' /\
       a_clitic_status a = replicate (length (a_prefield a)) false /\
       a_c_status a = replicate (length (a_prefield a)) false /\
       (a_clitic_status a' = a_clitic_status a ->
        a_c_status a' = a_c_status a ->
        a_dephead_status a = a_dephead_status a' /\
        a_countable_head_status a = a_countable_head_status a')).
Proof.
  intros Hlang.
  split; [intros; by apply unsupported_c_element|].
  split; [intros; by apply unsupported_clitic|].
  split; [intros; by apply unsupported_tag_form|].
  split; [|split].
  - intros a store k Hk. rewrite write_tags_rank by done.
    destruct (reverse _ !! (k - 1)); [|done]. by rewrite unsupported_tag_form.
  - intros e He. destruct (unsupported_locate_inl an toks lang Hlang depth kws e He). auto.
  - intros a' Ha'. apply locate_inr in Ha' as L'.
    destruct a' as [T head w1 pf ij cl cj c d pa v co].
    destruct L' as [Hk HT Hh Hhi Hw Hwi Hp Hij Hcl Hcj Hc Hd Hpa Hv Hco]. simpl in *.
    set (fl := replicate (length pf) false).
    set (d0 := dephead_loop an toks T head (zip ij (zip fl (zip cj (zip fl pf)))) 0 []).
    set (co0 := countable_step <$> zip pa (zip v (zip d0 pf))).
    exists (mkAnalysis T head w1 pf ij fl cj fl d0 pa v co0). simpl.
    split; [|repeat (split; [done|])].
    + apply locate_inr. constructor; simpl; try done.
      * apply comprehension_inr, comprehension_false. intros. by apply unsupported_clitic.
      * apply comprehension_inr, comprehension_false. intros. by apply unsupported_c_element.
    + intros -> ->. subst d0 co0. rewrite Hco, Hd. done.
Qed.

Lemma unsupported_language_witness :
  "latin" ≠ "french" /\
  (forall tok, tag_form Ex.hier_nav Ex.hier_toks "latin" tok = "") /\
  (forall a store k,
     1 <= k <= 4 ->
     write_tags Ex.hier_nav Ex.hier_toks "latin" a store !! rank_key k = Some (VStr "")) /\
  (forall e,
     locate Ex.hier_nav Ex.hier_toks "latin" 8 [3] = inl e ->
     e ≠ RecursionError /\ locate Ex.hier_nav Ex.hier_toks "french" 8 [3] = inl e) /\
  (exists a,
     locate Ex.hier_nav Ex.hier_toks "latin" 8 [3] = inr a /\
     a_prefield a = a_prefield Ex.hier_analysis /\
     a_conjunction_status a = a_conjunction_status Ex.hier_analysis /\
     a_c_status a = replicate (length (a_prefield a)) false).
Proof.
  assert (H : "latin" ≠ "french") by discriminate.
  split; [exact H|].
  destruct (unsupported_language Ex.hier_nav Ex.hier_toks "latin" 8 [3] H)
    as (_ & _ & Htag & Hrank & Herr & Hana).
  split; [exact Htag|]. split; [exact Hrank|]. split; [exact Herr|].
  assert (Hfr : locate Ex.hier_nav Ex.hier_toks "french" 8 [3] = inr Ex.hier_analysis)
    by (vm_compute; reflexivity).
  destruct (Hana Ex.hier_analysis Hfr)
    as (a & Hloc & _ & _ & _ & Hpf & _ & Hcj & _ & _ & _ & Hc & _).
  exists a. split; [exact Hloc|]. split; [exact Hpf|]. split; [exact Hcj | exact Hc].
Defined.

(** ** C7: the adposition pre-pass *)

Lemma _tag_p_form_fr_find toks children :
  _tag_p_form_fr toks children
  = match find (case_adposition toks) children with
    | None => ""
    | Some c => adp_lemma Pat.ADPS_FR (Str.lower (form (tok_at toks c)))
    end.
Proof.
  induction children as [|c children IH]; [done|]. simpl. unfold case_adposition at 1.
  destruct (String.eqb (UPOS (tok_at toks c)) "ADP"); simpl; [|done].
  destruct (String.eqb (DEPREL (tok_at toks c)) "case"); simpl; done.
Qed.

Lemma adp_lemma_find table s :
  adp_lemma table s
  = match find (entry_matches s) table with
    | None => "P"
    | Some (lemma, _) => lemma
    end.
Proof.
  induction table as [|[lemma regex] table IH]; [done|]. simpl.
  unfold entry_matches at 1. simpl. by destruct (Re.fullmatch regex s).
Qed.

(** No lemma of the table is the marker ['P'] or the empty string, so the
    retagging tells the three cases apart. *)
Lemma retag_pp_lemma s lemma regex tag :
  find (entry_matches s) Pat.ADPS_FR = Some (lemma, regex) ->
  retag_pp lemma tag = "PP:" ++ lemma ++ "[" ++ tag ++ "]".
Proof.
  intros H. apply find_some in H as [Hin _]. simpl in Hin.
  repeat (destruct Hin as [Heq|Hin]; [by injection Heq as <- <-|]). done.
Qed.

(** The phrase tag as the wrap of the base tag. *)
Lemma _tag_form_fr_wrap an toks tok :
  _tag_form_fr an toks tok
  = match find (case_adposition toks) (get_children an tok) with
    | Some c =>
        match find (entry_matches (Str.lower (form (tok_at toks c)))) Pat.ADPS_FR with
        | Some (lemma, _) => "PP:" ++ lemma ++ "[" ++ _tag_form_fr_base toks tok ++ "]"
        | None => "PP[" ++ _tag_form_fr_base toks tok ++ "]"
        end
    | None => _tag_form_fr_base toks tok
    end.
Proof.
  unfold _tag_form_fr. rewrite _tag_p_form_fr_find.
  destruct (find (case_adposition toks) (get_children an tok)) as [c|]; [|done].
  rewrite adp_lemma_find.
  destruct (find _ Pat.ADPS_FR) as [[lemma regex]|] eqn:Hf; [|done].
  by eapply retag_pp_lemma.
Qed.

(** C7. The pre-pass of the phrase tagger looks at the first child, in
    child order, that is an adposition attached by the case relation, and
    at nothing else: when the case-folded form of that child matches a
    pattern of the lemma table, the base tag [b] comes out as
    [PP:<lemma>[b]] for the lemma of the first pattern that matches; when
    it matches none, as [PP[b]]; when the token has no such child, the
    base tag comes out unwrapped. *)
Theorem adposition_wrap an toks tok :
  _tag_form_fr an toks tok
  = match find (case_adposition toks) (get_children an tok) with
    | Some c =>
        match find (entry_matches (Str.lower (form (tok_at toks c)))) Pat.ADPS_FR with
        | Some (lemma, _) => "PP:" ++ lemma ++ "[" ++ _tag_form_fr_base toks tok ++ "]"
        | None => "PP[" ++ _tag_form_fr_base toks tok ++ "]"
        end
    | None => _tag_form_fr_base toks tok
    end.
Proof. apply _tag_form_fr_wrap. Qed.

(** The adposition-wrap law on "A Jean": the capital is case-folded and
    the noun comes out as [PP:<a-grave>[NP]]. *)
Example adposition_wrap_a_jean :
  _tag_form_fr Ex.a_jean_nav Ex.a_jean_toks 1 = "PP:" ++ Pat.lemma_a ++ "[NP]".
Proof. reflexivity. Qed.

(** ** C5: nominative personal pronouns *)

(** What the cascade does for the forms its second pattern matches: the
    nominative tag, before the demonstrative and the generic pronoun
    rules. *)
Lemma nominative_as_coded an toks tok :
  UPOS (tok_at toks tok) = "PRON" ->
  Re.fullmatch Pat.t_prs_nom (Str.lower (form (tok_at toks tok))) = true ->
  find (case_adposition toks) (get_children an tok) = None ->
  _tag_form_fr an toks tok = "NP:PRON:Prs:Nom".
Proof.
  intros Hu Hm Hc. rewrite _tag_form_fr_wrap, Hc.
  unfold _tag_form_fr_base. rewrite Hu, Hm. done.
Qed.

Lemma nominative_forms :
  Re.fullmatch Pat.t_prs_nom <$> ["je"; "tu"; "il"; "ils"; "elle"; "elles"; "nous"; "vous"]
  = [true; true; true; true; true; true; true; false].
Proof. reflexivity. Qed.

(** C5 fails on the code. The pronoun "vous", without dependents, is
    tagged by the generic pronoun rule: the last alternative of the
    nominative pattern carries a stray bracket and matches "vou]s" instead
    of "vous", while its sibling "nous" takes the nominative tag. *)
Theorem nominative_vous :
  UPOS (tok_at Ex.vous_toks 0) = "PRON" /\
  Str.lower (form (tok_at Ex.vous_toks 0)) = "vous" /\
  get_children Ex.vous_nav 0 = [] /\
  _tag_form_fr Ex.vous_nav Ex.vous_toks 0 = "NP:PRON" /\
  _tag_form_fr Ex.vous_nav Ex.nous_toks 0 = "NP:PRON:Prs:Nom" /\
  Re.fullmatch Pat.t_prs_nom "vou]s" = true.
Proof. repeat split; reflexivity. Qed.

(** In a run of the script the pronoun is the countable head of rank 1 and
    the store receives the generic tag. *)
Example nominative_vous_script :
  exists store,
    script Ex.vous_nav 8 Ex.vous_hit "french" = Returned store /\
    store !! "T-1_form" = Some (VStr "NP:PRON") /\
    store !! "prefield_countable_heads" = Some (VStr "vous").
Proof. eexists. split; [reflexivity|]. split; vm_compute; reflexivity. Qed.

(** ** C6: punctuation and the copula special case *)

(** The claim as stated fails: the head of a copular clause is a dephead
    whatever its part of speech. *)
Lemma is_dephead_punct_head :
  ~ (forall an toks T head tok,
       UPOS (tok_at toks tok) = "PUNCT" -> is_dephead an toks T head tok = false).
Proof.
  intros H. specialize (H Ex.punct_nav Ex.punct_toks 1 0 0 eq_refl). discriminate H.
Qed.

(** In a run of the script on that clause the punctuation-tagged head is
    the countable head of rank 1. *)
Example punct_head_script :
  exists store,
    script Ex.punct_nav 8 Ex.punct_hit "french" = Returned store /\
    store !! "prefield_countable_heads" = Some (VStr "...") /\
    store !! "T-1_form" = Some (VStr "XX").
Proof. eexists. split; [reflexivity|]. split; vm_compute; reflexivity. Qed.

(** C6, amended. For a token whose part of speech is punctuation,
    [is_dephead] returns false unless the token is the head, the head is
    not the anchor and the relation of the anchor is [cop]: in that case
    the special case of the copula applies first and it returns true. *)
Theorem is_dephead_punct an toks T head tok :
  UPOS (tok_at toks tok) = "PUNCT" ->
  is_dephead an toks T head tok
  = (tok =? head)%nat && negb (T =? head)%nat && String.eqb (DEPREL (tok_at toks T)) "cop".
Proof.
  intros Hu. unfold is_dephead. rewrite Hu. simpl.
  by destruct ((tok =? head)%nat && negb (T =? head)%nat
               && String.eqb (DEPREL (tok_at toks T)) "cop").
Qed.

Lemma is_dephead_punct_witness :
  UPOS (tok_at Ex.hier_toks 1) = "PUNCT" /\
  is_dephead Ex.hier_nav Ex.hier_toks 3 4 1
  = (1 =? 4)%nat && negb (3 =? 4)%nat && String.eqb (DEPREL (tok_at Ex.hier_toks 3)) "cop".
Proof.
  split; [reflexivity|].
  apply (is_dephead_punct Ex.hier_nav Ex.hier_toks 3 4 1). reflexivity.
Defined.

(** ** C8: failures of the call *)

Lemma cyclic_not_acyclic : forall n, ~ acyclic_parentage Ex.cyclic_nav n.
Proof.
  intros n (height & _ & H).
  pose proof (H 1 2 eq_refl). pose proof (H 2 1 eq_refl). lia.
Qed.

(** The claim as stated fails: a tree with cyclic parentage whose cycle
    the analysis never walks lets the call return. *)
Lemma cyclic_tree_returns :
  ~ (forall an depth hit lang,
       (forall n, ~ acyclic_parentage an n) ->
       exists e, script an depth hit lang = Raised e (tags hit)).
Proof.
  intros H.
  destruct (H Ex.cyclic_nav 8 Ex.cyclic_hit "french" cyclic_not_acyclic) as [e He].
  vm_compute in He. discriminate He.
Qed.

(** Nor does the cycle matter when the language is not the recognized one,
    even with the cycle inside the prefield: no recursion takes place. *)
Example cyclic_prefield_unsupported :
  exists store,
    script Ex.cyclic_prefield_nav 0 Ex.cyclic_prefield_hit "latin" = Returned store /\
    store !! "prefield_countable_heads" = Some (VStr "Hier").
Proof. eexists. split; [reflexivity|]. vm_compute. reflexivity. Qed.

(** A chain of parents that never leaves a set of tokens failing the
    structural gate (a cycle, for one) uses up any recursion depth. *)
Lemma is_c_element_cycle an toks T head prefield (P : nat -> Prop) :
  (forall t, P t ->
     could_be_c_head an toks T head prefield t = false /\
     exists p, get_parent an t = Some p /\ P p) ->
  forall depth tok, P tok -> is_c_element an toks "french" T head prefield depth tok = None.
Proof.
  intros HP. induction depth as [|d IH]; intros tok Ht;
    rewrite is_c_element_unfold; simpl; unfold _is_c_element_fr;
    destruct (HP tok Ht) as (Hc & p & Hp & HPp); rewrite Hc, Hp; simpl; [done|].
  by rewrite (IH p HPp).
Qed.

(** When such a chain starts at a token of the prefield, the call fails
    with a recursion error at every depth. *)
Lemma cyclic_prefield_fails an toks depth kws T head w1 (P : nat -> Prop) tok :
  kws !! 0 = Some T -> T < length toks ->
  get_head an toks T = Some head -> head < length toks ->
  get_w1 an toks head = inr w1 -> w1 < length toks ->
  tok ∈ slice toks w1 T -> P tok ->
  (forall t, P t ->
     could_be_c_head an toks T head (slice toks w1 T) t = false /\
     exists p, get_parent an t = Some p /\ P p) ->
  locate an toks "french" depth kws = inl RecursionError.
Proof.
  intros Hk HT Hh Hhi Hw Hwi Hin Ht HP.
  destruct (locate an toks "french" depth kws) as [e|a] eqn:Hloc.
  - unfold locate, bind in Hloc.
    destruct kws as [|T' kws]; [done|]. simpl in Hk. injection Hk as ->.
    assert (Hix : forall t, t < length toks -> get_ix_from_tok toks t = inr t)
      by (intros t ?; by apply get_ix_from_tok_inr).
    rewrite (Hix T HT), Hh, (Hix head Hhi), Hw, (Hix w1 Hwi) in Hloc.
    destruct (comprehension (is_prefield_clitic _ _ _ _ _) _) as [e'|cl] eqn:Hcl.
    { apply comprehension_inl in Hcl as [-> _]. congruence. }
    destruct (comprehension (is_c_element _ _ _ _ _ _ _) _) as [e'|cs] eqn:Hcs; [|done].
    apply comprehension_inl in Hcs as [-> _]. congruence.
  - exfalso. apply locate_inr in Hloc as L.
    pose proof (loc_anchor _ _ _ _ _ _ L) as Hk'. rewrite Hk in Hk'. injection Hk' as HT'.
    pose proof (loc_head _ _ _ _ _ _ L) as Hh'. rewrite <- HT', Hh in Hh'.
    injection Hh' as Hhead.
    pose proof (loc_w1 _ _ _ _ _ _ L) as Hw'. rewrite <- Hhead, Hw in Hw'.
    injection Hw' as Hw1.
    pose proof (loc_prefield _ _ _ _ _ _ L) as Hp. rewrite <- Hw1, <- HT' in Hp.
    pose proof (loc_c _ _ _ _ _ _ L) as Hc. rewrite <- HT', <- Hhead, Hp in Hc.
    apply mapM_Some_1 in Hc. apply list_elem_of_lookup in Hin as [j Hj].
    destruct (Forall2_lookup_l _ _ _ _ _ Hc Hj) as (b & _ & Hb).
    rewrite (is_c_element_cycle an toks T head _ P HP depth tok Ht) in Hb. done.
Qed.

Example cyclic_prefield_raises depth :
  script Ex.cyclic_prefield_nav depth Ex.cyclic_prefield_hit "french"
  = Raised RecursionError ∅.
Proof.
  unfold script.
  change (toks Ex.cyclic_prefield_hit) with Ex.cyclic_prefield_toks.
  change (kws Ex.cyclic_prefield_hit) with [3].
  rewrite (cyclic_prefield_fails Ex.cyclic_prefield_nav Ex.cyclic_prefield_toks depth [3]
             3 3 0 (fun t => t = 1 \/ t = 2) 1); try done.
  - simpl. lia.
  - simpl. lia.
  - simpl. lia.
  - apply in_prefield_elem_of. reflexivity.
  - by left.
  - intros t [-> | ->]; (split; [reflexivity|]).
    + exists 2. split; [reflexivity | by right].
    + exists 1. split; [reflexivity | by left].
Qed.

(** C8, amended. A clause record without anchor makes the call fail with
    the index error of [hit.kws[0]], before any tag is written: the store
    is the one the call received. A tree with cyclic parentage makes the
    call fail (French module), with a recursion error at every recursion
    depth and again before any tag is written, when the complementizer
    inheritance of a prefield token walks the cycle: the token belongs to
    a set of tokens that all fail the structural gate and all have a
    parent in the set. A cycle the analysis does not walk is not detected;
    the call then returns. *)
Theorem script_failure an depth hit lang :
  (kws hit = [] -> script an depth hit lang = Raised IndexError (tags hit)) /\
  (forall T head w1 (P : nat -> Prop) tok,
     lang = "french" ->
     kws hit !! 0 = Some T -> T < length (toks hit) ->
     get_head an (toks hit) T = Some head -> head < length (toks hit) ->
     get_w1 an (toks hit) head = inr w1 -> w1 < length (toks hit) ->
     tok ∈ slice (toks hit) w1 T -> P tok ->
     (forall t, P t ->
        could_be_c_head an (toks hit) T head (slice (toks hit) w1 T) t = false /\
        exists p, get_parent an t = Some p /\ P p) ->
     script an depth hit lang = Raised RecursionError (tags hit)).
Proof.
  split.
  - intros Hk. unfold script, locate. by rewrite Hk.
  - intros T head w1 P tok -> Hk HT Hh Hhi Hw Hwi Hin Ht HP. unfold script.
    by rewrite (cyclic_prefield_fails an (toks hit) depth (kws hit) T head w1 P tok).
Qed.

Lemma script_failure_witness :
  kws Ex.no_anchor_hit = [] /\
  script Ex.hier_nav 8 Ex.no_anchor_hit "french" = Raised IndexError (tags Ex.no_anchor_hit) /\
  script Ex.cyclic_prefield_nav 8 Ex.cyclic_prefield_hit "french"
  = Raised RecursionError (tags Ex.cyclic_prefield_hit).
Proof.
  split; [reflexivity|]. split.
  - exact (proj1 (script_failure Ex.hier_nav 8 Ex.no_anchor_hit "french") eq_refl).
  - apply (proj2 (script_failure Ex.cyclic_prefield_nav 8 Ex.cyclic_prefield_hit "french")
             3 3 0 (fun t => t = 1 \/ t = 2) 1).
    + reflexivity.
    + reflexivity.
    + simpl. lia.
    + reflexivity.
    + simpl. lia.
    + reflexivity.
    + simpl. lia.
    + apply in_prefield_elem_of. reflexivity.
    + left. reflexivity.
    + intros t [-> | ->]; (split; [reflexivity|]).
      * exists 2. split; [reflexivity | right; reflexivity].
      * exists 1. split; [reflexivity | left; reflexivity].
Defined.

(** * Further properties of the script *)

(** ** The two locator loops as one condition *)

Section Reducer.

Variable an : Navigator.
Variable toks : list Token.
Variables T head : nat.

Local Abbreviation step := (dephead_step an toks T head).
Local Abbreviation loop := (dephead_loop an toks T head).

Lemma dephead_loop_snoc rows r : forall i l,
  loop (rows ++ [r]) i l = step (loop rows i l) (i + length rows) r.
Proof.
  induction rows as [|r0 rows IH]; intros i l; simpl.
  - by rewrite Nat.add_0_r.
  - rewrite IH. by replace (S i + length rows) with (i + S (length rows)) by lia.
Qed.

(** The flag the first loop leaves at a position: no later row (the row
    itself included) resets, the token is neither clitic nor interjection,
    and it is a dephead. *)
Lemma dephead_loop_lookup rows : forall j ij cl cj c tok,
  rows !! j = Some (ij, (cl, (cj, (c, tok)))) ->
  loop rows 0 [] !! j
  = Some (negb (existsb resets (drop j rows)) && negb (cl || ij)
          && is_dephead an toks T head tok).
Proof.
  induction rows as [|r rows IH] using rev_ind; intros j ij cl cj c tok Hj; [done|].
  rewrite dephead_loop_snoc. simpl.
  assert (Hlen : length (loop rows 0 []) = length rows)
    by (by rewrite dephead_loop_length).
  destruct (decide (j < length rows)) as [Hlt|Hge].
  - rewrite lookup_app_l in Hj by done.
    rewrite drop_app_le by lia. rewrite existsb_app. simpl. rewrite orb_false_r.
    destruct (resets r) eqn:Hr.
    + rewrite orb_true_r. simpl.
      apply dephead_step_resets; [done | lia].
    + rewrite orb_false_r. destruct r as [ij' [cl' [cj' [c' tok']]]].
      simpl in Hr. unfold dephead_step. rewrite Hr.
      destruct (cl' || ij'); rewrite lookup_app_l by lia; by eapply IH.
  - assert (j = length rows).
    { apply lookup_lt_Some in Hj. rewrite length_app in Hj. simpl in Hj. lia. }
    subst j. rewrite list_lookup_middle in Hj by done. injection Hj as ->.
    rewrite drop_app_length. simpl. rewrite orb_false_r.
    unfold dephead_step. destruct (cj || c) eqn:Hr; simpl.
    + apply lookup_replicate_2. lia.
    + destruct (cl || ij); simpl.
      * rewrite lookup_app_r by lia. by rewrite Hlen, Nat.sub_diag.
      * rewrite lookup_app_r by lia. by rewrite Hlen, Nat.sub_diag.
Qed.

End Reducer.

Lemma existsb_drop_false {A} (f : A -> bool) (l : list A) j :
  existsb f (drop j l) = false <->
  forall i x, j <= i -> l !! i = Some x -> f x = false.
Proof.
  split.
  - intros H i x Hi Hx. rewrite <- not_true_iff_false in H.
    apply not_true_iff_false. intros Hf. apply H, existsb_exists.
    exists x. split; [|done]. apply list_elem_of_In, list_elem_of_lookup.
    exists (i - j). rewrite lookup_drop. by replace (j + (i - j)) with i by lia.
  - intros H. apply not_true_iff_false. intros He.
    apply existsb_exists in He as (x & Hin & Hf).
    apply list_elem_of_In, list_elem_of_lookup in Hin as [k Hk].
    rewrite lookup_drop in Hk. rewrite (H (j + k) x) in Hf; [done | lia | done].
Qed.

Lemma rows_lookup (ijs cls cjs cs : list bool) (pf : list nat) i ij cl cj c tok :
  zip ijs (zip cls (zip cjs (zip cs pf))) !! i = Some (ij, (cl, (cj, (c, tok)))) <->
  ijs !! i = Some ij /\ cls !! i = Some cl /\ cjs !! i = Some cj /\
  cs !! i = Some c /\ pf !! i = Some tok.
Proof.
  rewrite !lookup_zip_with.
  destruct (ijs !! i), (cls !! i), (cjs !! i), (cs !! i), (pf !! i); simpl;
    split; intros H; try done; try (by destruct H as (? & ? & ? & ? & ?)).
  - by simplify_eq.
  - destruct H as (? & ? & ? & ? & ?). by simplify_eq.
Qed.

(** X1. In an analysis, the prefield token at position [j] is a countable
    head exactly when it is a dephead, neither parenthetical nor vocative,
    neither clitic nor interjection, and no token from position [j] on is
    a conjunction or a complementizer. *)
Theorem countable_head_iff an toks lang depth kws a j tok :
  locate an toks lang depth kws = inr a ->
  a_prefield a !! j = Some tok ->
  (a_countable_head_status a !! j = Some true <->
   is_dephead an toks (a_T a) (a_head a) tok = true /\
   is_parenthetical an toks (a_T a) (a_head a) tok = false /\
   is_vocative an toks (a_T a) (a_head a) tok = false /\
   a_clitic_status a !! j = Some false /\
   a_interjection_status a !! j = Some false /\
   forall i, j <= i -> i < length (a_prefield a) ->
     a_conjunction_status a !! i = Some false /\ a_c_status a !! i = Some false).
Proof.
  intros Hloc Htok. apply locate_inr in Hloc as L.
  assert (Hj : j < length (a_prefield a)) by (by apply lookup_lt_Some in Htok).
  set (rows := zip (a_interjection_status a)
                 (zip (a_clitic_status a)
                    (zip (a_conjunction_status a) (zip (a_c_status a) (a_prefield a))))).
  destruct (located_row L j Hj) as (ij & cl & cj & c & t & _ & _ & Hrow).
  fold rows in Hrow. pose proof Hrow as Hrow'.
  apply rows_lookup in Hrow' as (Hij & Hcl & Hcj & Hc & Ht).
  rewrite Htok in Ht. injection Ht as <-.
  pose proof (dephead_loop_lookup an toks (a_T a) (a_head a) rows j _ _ _ _ _ Hrow) as Hd.
  unfold rows in Hd. rewrite <- (loc_dephead _ _ _ _ _ _ L) in Hd. fold rows in Hd.
  assert (Hco : a_countable_head_status a !! j
    = Some (countable_step
              (is_parenthetical an toks (a_T a) (a_head a) tok,
               (is_vocative an toks (a_T a) (a_head a) tok,
                (negb (existsb resets (drop j rows)) && negb (cl || ij)
                 && is_dephead an toks (a_T a) (a_head a) tok, tok))))).
  { rewrite (loc_countable _ _ _ _ _ _ L), list_lookup_fmap, !lookup_zip_with.
    rewrite (loc_parenthetical _ _ _ _ _ _ L), (loc_vocative _ _ _ _ _ _ L).
    by rewrite !list_lookup_fmap, Htok, Hd. }
  rewrite Hco, Hij, Hcl. simpl.
  assert (Hres : existsb resets (drop j rows) = false <->
    forall i, j <= i -> i < length (a_prefield a) ->
      a_conjunction_status a !! i = Some false /\ a_c_status a !! i = Some false).
  { rewrite existsb_drop_false. split.
    - intros H i Hji Hi.
      destruct (located_row L i Hi) as (ij' & cl' & cj' & c' & t' & Hcj' & Hc' & Hr).
      specialize (H i _ Hji Hr). simpl in H.
      apply orb_false_iff in H as [-> ->]. done.
    - intros H i [ij' [cl' [cj' [c' t']]]] Hji Hr. simpl.
      apply rows_lookup in Hr as (_ & _ & Hcj' & Hc' & Ht').
      apply lookup_lt_Some in Ht'. destruct (H i Hji Ht') as [H1 H2].
      rewrite Hcj' in H1. rewrite Hc' in H2. by simplify_eq. }
  rewrite <- Hres.
  destruct (existsb resets (drop j rows)), cl, ij,
    (is_dephead an toks (a_T a) (a_head a) tok),
    (is_parenthetical an toks (a_T a) (a_head a) tok),
    (is_vocative an toks (a_T a) (a_head a) tok); simpl; split;
    try done; try (by intros (? & ? & ? & ? & ? & ?)).
Qed.

Lemma countable_head_iff_witness :
  locate Ex.hier_nav Ex.hier_toks "french" 8 [3] = inr Ex.hier_analysis /\
  a_prefield Ex.hier_analysis !! 2 = Some 2 /\
  (a_countable_head_status Ex.hier_analysis !! 2 = Some true <->
   is_dephead Ex.hier_nav Ex.hier_toks 3 4 2 = true /\
   is_parenthetical Ex.hier_nav Ex.hier_toks 3 4 2 = false /\
   is_vocative Ex.hier_nav Ex.hier_toks 3 4 2 = false /\
   a_clitic_status Ex.hier_analysis !! 2 = Some false /\
   a_interjection_status Ex.hier_analysis !! 2 = Some false /\
   forall i, 2 <= i -> i < length (a_prefield Ex.hier_analysis) ->
     a_conjunction_status Ex.hier_analysis !! i = Some false /\
     a_c_status Ex.hier_analysis !! i = Some false).
Proof.
  assert (H1 : locate Ex.hier_nav Ex.hier_toks "french" 8 [3] = inr Ex.hier_analysis)
    by (vm_compute; reflexivity).
  assert (H2 : a_prefield Ex.hier_analysis !! 2 = Some 2) by reflexivity.
  split; [exact H1|]. split; [exact H2|].
  exact (countable_head_iff Ex.hier_nav Ex.hier_toks "french" 8 [3] Ex.hier_analysis 2 2 H1 H2).
Defined.

(** ** Possible clitics reach the anchor *)

Lemma of_links_next_is_total heads : next_is_total (Nav.of_links heads) (length heads).
Proof.
  intros tok Ht. simpl. unfold Nav.next_tok.
  by destruct (Nat.ltb_spec (S tok) (length heads)); [|lia].
Qed.

(** X2. When next-token leads to the next position, a token that passes
    [could_be_prefield_clitic] is followed by such tokens only, up to the
    end of the prefield: the possible clitics are a block that ends at the
    anchor. *)
Theorem clitic_block an toks a b depth tok tok' :
  next_is_total an (length toks) ->
  could_be_prefield_clitic an toks (slice toks a b) depth tok = Some true ->
  tok <= tok' -> tok' < b -> tok' < length toks ->
  could_be_prefield_clitic an toks (slice toks a b) depth tok' = Some true.
Proof.
  intros Hnext Hc Hle Hb Hn.
  remember (tok' - tok) as k eqn:Hk. revert tok Hc Hle Hk.
  induction k as [|k IH]; intros tok Hc Hle Hk.
  - by replace tok' with tok by lia.
  - apply (IH (S tok)); [|lia|lia].
    pose proof Hc as Hc'. rewrite clitic_unfold in Hc'.
    destruct (negb (in_prefield (slice toks a b) tok)) eqn:Hin; [done|].
    apply negb_false_iff, in_prefield_slice in Hin.
    destruct (negb (bool_decide _)); [done|].
    destruct (negb (Str.mem _ _)); [done|].
    rewrite (Hnext tok) in Hc' by lia.
    assert (Hin' : in_prefield (slice toks a b) (S tok) = true)
      by (apply in_prefield_slice; lia).
    rewrite Hin' in Hc'. destruct depth as [|d]; [done|].
    destruct (could_be_prefield_clitic an toks (slice toks a b) d (S tok))
      as [b'|] eqn:Hrec; [|done].
    injection Hc' as ->. by apply (clitic_mono _ _ _ d _ true (S d)); [|lia].
Qed.

Lemma clitic_block_witness :
  next_is_total Ex.clitic_nav (length Ex.clitic_toks) /\
  could_be_prefield_clitic Ex.clitic_nav Ex.clitic_toks (slice Ex.clitic_toks 0 3) 8 1
  = Some true /\
  1 <= 2 /\ 2 < 3 /\ 2 < length Ex.clitic_toks /\
  could_be_prefield_clitic Ex.clitic_nav Ex.clitic_toks (slice Ex.clitic_toks 0 3) 8 2
  = Some true.
Proof.
  assert (H1 : next_is_total Ex.clitic_nav (length Ex.clitic_toks))
    by apply (of_links_next_is_total Ex.clitic_links).
  assert (H2 : could_be_prefield_clitic Ex.clitic_nav Ex.clitic_toks
                 (slice Ex.clitic_toks 0 3) 8 1 = Some true) by reflexivity.
  assert (H3 : 1 <= 2) by lia.
  assert (H4 : 2 < 3) by lia.
  assert (H5 : 2 < length Ex.clitic_toks) by (vm_compute; lia).
  repeat (split; [assumption|]).
  exact (clitic_block Ex.clitic_nav Ex.clitic_toks 0 3 8 1 2 H1 H2 H3 H4 H5).
Defined.

(** ** Where complementizer status comes from *)

Section COrigin.

Variable an : Navigator.
Variable toks : list Token.
Variables T head : nat.
Variable prefield : list nat.

Local Abbreviation c_element := (is_c_element an toks "french" T head prefield).
Local Abbreviation c_head := (could_be_c_head an toks T head prefield).

(** For a token that passes the structural gate the answer is lexical: it
    does not depend on the depth. *)
Lemma is_c_element_gate depth depth' tok :
  c_head tok = true -> c_element depth tok = c_element depth' tok.
Proof.
  intros Hc. rewrite !is_c_element_unfold. simpl.
  unfold _is_c_element_fr. by rewrite Hc.
Qed.

Lemma is_c_element_inherit depth tok :
  c_head tok = false ->
  c_element (S depth) tok
  = match get_parent an tok with
    | Some parent => c_element depth parent
    | None => Some false
    end.
Proof.
  intros Hc. rewrite is_c_element_unfold. simpl.
  unfold _is_c_element_fr. rewrite Hc. simpl.
  destruct (get_parent an tok) as [p|]; [|done].
  by destruct (is_c_element _ _ _ _ _ _ depth p) as [[|]|].
Qed.

Lemma is_c_element_origin depth : forall tok,
  c_element depth tok = Some true <->
  exists k anc,
    k <= depth /\ nth_parent an k tok = Some anc /\
    (forall j t, j < k -> nth_parent an j tok = Some t -> c_head t = false) /\
    c_head anc = true /\ c_element 0 anc = Some true.
Proof.
  induction depth as [|d IH]; intros tok.
  - split.
    + intros H. destruct (c_head tok) eqn:Hc.
      * exists 0, tok. repeat split; try done. intros; lia.
      * rewrite is_c_element_unfold in H. simpl in H.
        unfold _is_c_element_fr in H. rewrite Hc in H. simpl in H.
        by destruct (get_parent an tok).
    + intros (k & anc & Hk & Hanc & _ & Hc & Hlex).
      replace k with 0 in Hanc by lia. simpl in Hanc. by injection Hanc as ->.
  - destruct (c_head tok) eqn:Hc.
    + rewrite (is_c_element_gate (S d) 0 tok Hc). split.
      * intros H. exists 0, tok. repeat split; try done; [lia | intros; lia].
      * intros (k & anc & Hk & Hanc & Hbelow & Hc' & Hlex).
        destruct k as [|k]; [simpl in Hanc; by injection Hanc as ->|].
        rewrite (Hbelow 0 tok) in Hc; [done | lia | done].
    + rewrite (is_c_element_inherit d tok Hc). split.
      * destruct (get_parent an tok) as [p|] eqn:Hp; [|done].
        intros (k & anc & Hk & Hanc & Hbelow & Hc' & Hlex)%IH.
        exists (S k), anc. split; [lia|]. split; [simpl; by rewrite Hp|].
        split; [|done]. intros [|j] t Hj Ht.
        -- simpl in Ht. by injection Ht as <-.
        -- simpl in Ht. rewrite Hp in Ht. apply (Hbelow j); [lia | done].
      * intros (k & anc & Hk & Hanc & Hbelow & Hc' & Hlex).
        destruct k as [|k]; [simpl in Hanc; injection Hanc as ->; congruence|].
        simpl in Hanc. destruct (get_parent an tok) as [p|] eqn:Hp; [|done].
        apply IH. exists k, anc. split; [lia|]. split; [done|]. split; [|done].
        intros j t Hj Ht. apply (Hbelow (S j)); [lia|]. simpl. by rewrite Hp.
Qed.

End COrigin.

(** X3. A token is a complementizer (French) exactly when it, or an
    ancestor reached within the depth through tokens that all fail the
    structural gate, passes the gate and the lexical test; that token is
    then in the prefield, a dephead and a subordinator, pronoun or adverb.
    No other token is ever a complementizer. *)
Theorem c_element_origin an toks T head prefield depth tok :
  (is_c_element an toks "french" T head prefield depth tok = Some true <->
   exists k anc,
     k <= depth /\ nth_parent an k tok = Some anc /\
     (forall j t, j < k -> nth_parent an j tok = Some t ->
        could_be_c_head an toks T head prefield t = false) /\
     could_be_c_head an toks T head prefield anc = true /\
     is_c_element an toks "french" T head prefield 0 anc = Some true) /\
  (forall anc,
     could_be_c_head an toks T head prefield anc = true ->
     in_prefield prefield anc = true /\
     is_dephead an toks T head anc = true /\
     (UPOS (tok_at toks anc) = "SCONJ" \/ UPOS (tok_at toks anc) = "PRON" \/
      UPOS (tok_at toks anc) = "ADV")).
Proof.
  split; [apply is_c_element_origin|].
  intros anc. unfold could_be_c_head, Str.mem. simpl.
  destruct (in_prefield prefield anc); [|done].
  destruct (is_dephead an toks T head anc); [|done]. simpl.
  rewrite orb_false_r. intros H. apply negb_true_iff in H.
  repeat split.
  destruct (String.eqb_spec (UPOS (tok_at toks anc)) "SCONJ"); [by left|].
  destruct (String.eqb_spec (UPOS (tok_at toks anc)) "PRON"); [by right; left|].
  destruct (String.eqb_spec (UPOS (tok_at toks anc)) "ADV"); [by right; right|].
  done.
Qed.

(** ** The special classes exclude one another *)

(** X4. The part of speech keeps the special classes apart: no token is
    both a prefield conjunction and an interjection, a conjunction or an
    interjection is never a clitic and never passes the structural gate of
    the complementizers, no token is both parenthetical and vocative, and
    the head itself is never parenthetical. *)
Theorem special_classes_exclusive an toks lang T head prefield depth tok :
  ~ (is_prefield_conjunction an toks T head prefield tok = true /\
     is_prefield_interjection toks prefield tok = true) /\
  ~ (is_prefield_conjunction an toks T head prefield tok = true /\
     is_prefield_clitic an toks lang prefield depth tok = Some true) /\
  ~ (is_prefield_interjection toks prefield tok = true /\
     is_prefield_clitic an toks lang prefield depth tok = Some true) /\
  ~ (is_prefield_conjunction an toks T head prefield tok = true /\
     could_be_c_head an toks T head prefield tok = true) /\
  ~ (is_prefield_interjection toks prefield tok = true /\
     could_be_c_head an toks T head prefield tok = true) /\
  ~ (is_parenthetical an toks T head tok = true /\
     is_vocative an toks T head tok = true) /\
  is_parenthetical an toks T head head = false.
Proof.
  assert (Hcj : is_prefield_conjunction an toks T head prefield tok = true ->
                UPOS (tok_at toks tok) = "CCONJ").
  { unfold is_prefield_conjunction. repeat case_match; try done.
    intros _. apply String.eqb_eq. by apply negb_false_iff. }
  assert (Hij : is_prefield_interjection toks prefield tok = true ->
                UPOS (tok_at toks tok) = "INTJ").
  { unfold is_prefield_interjection. repeat case_match; try done.
    intros _. apply String.eqb_eq. by apply negb_false_iff. }
  assert (Hcl : is_prefield_clitic an toks lang prefield depth tok = Some true ->
                UPOS (tok_at toks tok) = "PRON" \/ UPOS (tok_at toks tok) = "ADV").
  { unfold is_prefield_clitic, _is_prefield_clitic_fr.
    destruct (String.eqb lang "french"); [|done].
    destruct (could_be_prefield_clitic _ _ _ _ _); [|done].
    destruct (negb b); [done|].
    destruct (String.eqb_spec (UPOS (tok_at toks tok)) "PRON"); [by left|].
    destruct (String.eqb_spec (UPOS (tok_at toks tok)) "ADV"); [by right|done]. }
  assert (Hch : could_be_c_head an toks T head prefield tok = true ->
                UPOS (tok_at toks tok) = "SCONJ" \/ UPOS (tok_at toks tok) = "PRON" \/
                UPOS (tok_at toks tok) = "ADV").
  { unfold could_be_c_head, Str.mem. simpl. repeat case_match; try done. intros _.
    destruct (String.eqb_spec (UPOS (tok_at toks tok)) "SCONJ"); [by left|].
    destruct (String.eqb_spec (UPOS (tok_at toks tok)) "PRON"); [by right; left|].
    destruct (String.eqb_spec (UPOS (tok_at toks tok)) "ADV"); [by right; right|done]. }
  repeat split.
  - intros [H1%Hcj H2%Hij]. congruence.
  - intros [H1%Hcj [H2|H2]%Hcl]; congruence.
  - intros [H1%Hij [H2|H2]%Hcl]; congruence.
  - intros [H1%Hcj [H2|[H2|H2]]%Hch]; congruence.
  - intros [H1%Hij [H2|[H2|H2]]%Hch]; congruence.
  - unfold is_parenthetical, is_vocative. intros [H1 H2].
    destruct (negb (is_dephead an toks T head tok)); [done|].
    destruct (String.eqb_spec (DEPREL (tok_at toks tok)) "parataxis") as [E|]; [|done].
    rewrite E in H2. done.
  - unfold is_parenthetical. rewrite Nat.eqb_refl. by repeat case_match.
Qed.

(** ** The head of the clause *)

Module ReShapes.
Import Re.

Lemma matches_eps s : matches Eps s <-> s = "".
Proof. split; [by inversion 1 | intros ->; constructor]. Qed.

Lemma matches_chr c s : matches (Chr c) s <-> s = String c "".
Proof. split; [by inversion 1 | intros ->; constructor]. Qed.

Lemma matches_cat r1 r2 s :
  matches (Cat r1 r2) s <-> exists s1 s2, s = s1 ++ s2 /\ matches r1 s1 /\ matches r2 s2.
Proof.
  split; [inversion 1; subst; eauto | intros (s1 & s2 & -> & H1 & H2); by constructor].
Qed.

Lemma matches_alt r1 r2 s : matches (Alt r1 r2) s <-> matches r1 s \/ matches r2 s.
Proof.
  split; [inversion 1; subst; auto | intros [H|H]; [by apply m_alt_l | by apply m_alt_r]].
Qed.

Lemma matches_lit w : forall s, matches (lit w) s <-> s = w.
Proof.
  induction w as [|c w IH]; intros s; [apply matches_eps|].
  destruct w as [|c' w]; [apply matches_chr|].
  change (lit (String c (String c' w))) with (Cat (Chr c) (lit (String c' w))).
  rewrite matches_cat. split.
  - intros (s1 & s2 & -> & H1%matches_chr & H2%IH). by subst.
  - intros ->. exists (String c ""), (String c' w).
    split; [done|]. split; [by apply matches_chr | by apply IH].
Qed.

Lemma matches_star_dot s :
  matches (Star Dot) s <-> Forall (fun c => c ≠ newline) (list_ascii_of_string s).
Proof.
  split.
  - intros H. remember (Star Dot) as r eqn:Hr.
    induction H; try done; injection Hr as ->.
    inversion H; subst. simpl. constructor; [done | by apply IHmatches2].
  - induction s as [|c s IH]; simpl; intros H; [constructor|].
    apply Forall_cons in H as [Hc Hs].
    change (String c s) with (String c "" ++ s).
    constructor; [by constructor | by apply IH].
Qed.

(** The relations [r'aux.*|cop'] accepts: [cop] itself, and whatever
    begins with [aux] and holds no line break. *)
Lemma aux_cop_iff s :
  fullmatch Pat.aux_cop s = true <->
  s = "cop" \/
  exists r, s = "aux" ++ r /\ Forall (fun c => c ≠ newline) (list_ascii_of_string r).
Proof.
  rewrite ReFacts.fullmatch_matches. unfold Pat.aux_cop. simpl alts. simpl cats.
  rewrite matches_alt, matches_cat, (matches_lit "cop"). split.
  - intros [(s1 & s2 & -> & H1%(matches_lit "aux") & H2%matches_star_dot) | ->];
      [right | by left]. subst. eauto.
  - intros [-> | (r & -> & Hr)]; [by right | left].
    exists "aux", r. split; [done|]. split; [by apply (matches_lit "aux")|].
    by apply matches_star_dot.
Qed.

End ReShapes.

(** X5. The head is the parent of the anchor when the relation of the
    anchor is [cop] or begins with [aux] (and holds no line break), and the
    anchor itself in every other case; a sub-typed copula relation such as
    [cop:own] leaves the anchor as head. *)
Theorem get_head_cases an toks T :
  ((DEPREL (tok_at toks T) = "cop" \/
    exists r, DEPREL (tok_at toks T) = "aux" ++ r /\
              Forall (fun c => c ≠ Re.newline) (list_ascii_of_string r)) ->
   get_head an toks T = get_parent an T) /\
  (~ (DEPREL (tok_at toks T) = "cop" \/
      exists r, DEPREL (tok_at toks T) = "aux" ++ r /\
                Forall (fun c => c ≠ Re.newline) (list_ascii_of_string r)) ->
   get_head an toks T = Some T) /\
  (forall sub, DEPREL (tok_at toks T) = "cop:" ++ sub -> get_head an toks T = Some T).
Proof.
  unfold get_head.
  destruct (Re.fullmatch Pat.aux_cop (DEPREL (tok_at toks T))) eqn:E.
  - apply ReShapes.aux_cop_iff in E. split; [done|]. split; [done|].
    intros sub Hs. rewrite Hs in E. destruct E as [E | (r & E & _)]; discriminate E.
  - split; [|done]. intros H%ReShapes.aux_cop_iff. congruence.
Qed.

(** ** The leftmost word and the span of the prefield *)




(** ** What the taggers leave in the store *)

Section Diagnostics.

Variable an : Navigator.
Variable toks : list Token.
Variable lang : string.

(** The diagnostic entries after the taggers. *)
Lemma write_tags_diagnostics (a : Analysis) (st : gmap string value) :
  let s := write_tags an toks lang a st in
  let pf := a_prefield a in
  s !! "prefield_clitics"
  = Some (VStr (Str.join " " (forms toks (selected (a_clitic_status a) pf)))) /\
  s !! "prefield_conjunctions"
  = Some (VStr (Str.join " " (forms toks (selected (a_conjunction_status a) pf)))) /\
  s !! "prefield_cs"
  = Some (VStr (Str.join " " (forms toks (selected (a_c_status a) pf)))) /\
  s !! "prefield_countable_heads"
  = Some (VStr (Str.join " " (forms toks (selected (a_countable_head_status a) pf)))) /\
  s !! "T" = Some (VStr (form (tok_at toks (a_T a)))) /\
  s !! "head" = Some (VStr (form (tok_at toks (a_head a)))) /\
  s !! "w1" = Some (VStr (form (tok_at toks (a_w1 a)))) /\
  s !! "prefield" = Some (VList (forms toks pf)).
Proof. unfold write_tags. simpl. repeat split; by simplify_map_eq. Qed.

(** What the taggers store under a key they assign does not depend on
    what the store held before. *)
Lemma write_tags_overwrites (a : Analysis) (st st' : gmap string value) key :
  key ∈ written_keys ->
  write_tags an toks lang a st !! key = write_tags an toks lang a st' !! key.
Proof.
  intros Hk.
  destruct (write_tags_diagnostics a st) as (H1 & H2 & H3 & H4 & H5 & H6 & H7 & H8).
  destruct (write_tags_diagnostics a st') as (G1 & G2 & G3 & G4 & G5 & G6 & G7 & G8).
  unfold written_keys in Hk.
  repeat (apply elem_of_cons in Hk as [->|Hk]);
    [ rewrite <- (proj1 rank_key_values)
    | rewrite <- (proj1 (proj2 rank_key_values))
    | rewrite <- (proj1 (proj2 (proj2 rank_key_values)))
    | rewrite <- (proj2 (proj2 (proj2 rank_key_values)))
    | .. ].
  1-4: by rewrite !write_tags_rank by lia.
  9: by apply elem_of_nil in Hk.
  all: congruence.
Qed.

Lemma write_tags_idempotent (a : Analysis) (st : gmap string value) :
  write_tags an toks lang a (write_tags an toks lang a st) = write_tags an toks lang a st.
Proof.
  apply map_eq. intros key. destruct (decide (key ∈ written_keys)) as [Hin|Hnin].
  - by apply write_tags_overwrites.
  - by rewrite write_tags_frame.
Qed.

End Diagnostics.

(** X7. When the leftmost word is not before the anchor the prefield is
    empty, and the call returns with the four rank entries and the four
    diagnostic lists of forms empty and with an empty prefield list. *)
Theorem empty_prefield an depth hit lang a :
  locate an (toks hit) lang depth (kws hit) = inr a ->
  a_T a <= a_w1 a ->
  a_prefield a = [] /\ a_countable_head_status a = [] /\
  exists store,
    script an depth hit lang = Returned store /\
    (forall k, 1 <= k <= 4 -> store !! rank_key k = Some (VStr "")) /\
    store !! "prefield_clitics" = Some (VStr "") /\
    store !! "prefield_conjunctions" = Some (VStr "") /\
    store !! "prefield_cs" = Some (VStr "") /\
    store !! "prefield_countable_heads" = Some (VStr "") /\
    store !! "prefield" = Some (VList []).
Proof.
  intros Hloc Hle. apply locate_inr in Hloc as L.
  assert (Hp : a_prefield a = []).
  { apply length_zero_iff_nil. rewrite (loc_prefield _ _ _ _ _ _ L), slice_length. lia. }
  assert (Hnil : forall l : list bool, length l = length (a_prefield a) -> l = []).
  { intros l Hl. apply length_zero_iff_nil. by rewrite Hl, Hp. }
  pose proof (Hnil _ (located_clitic_length L)) as Hcl.
  pose proof (Hnil _ (located_conjunction_length L)) as Hcj.
  pose proof (Hnil _ (located_c_length L)) as Hc.
  pose proof (Hnil _ (located_countable_length L)) as Hco.
  split; [done|]. split; [done|].
  exists (write_tags an (toks hit) lang a (tags hit)).
  split; [unfold script; by rewrite Hloc|].
  destruct (write_tags_diagnostics an (toks hit) lang a (tags hit))
    as (H1 & H2 & H3 & H4 & _ & _ & _ & H8).
  simpl in *. rewrite Hp, ?Hcl, ?Hcj, ?Hc, ?Hco in *.
  split; [|done]. intros k Hk. rewrite write_tags_rank by done. by rewrite Hp, Hco.
Qed.

Lemma empty_prefield_witness :
  locate Ex.cyclic_nav (toks Ex.cyclic_hit) "french" 8 (kws Ex.cyclic_hit)
  = inr (mkAnalysis 0 0 0 [] [] [] [] [] [] [] [] []) /\
  0 <= 0 /\
  exists store,
    script Ex.cyclic_nav 8 Ex.cyclic_hit "french" = Returned store /\
    store !! "prefield" = Some (VList []).
Proof.
  assert (H : locate Ex.cyclic_nav (toks Ex.cyclic_hit) "french" 8 (kws Ex.cyclic_hit)
              = inr (mkAnalysis 0 0 0 [] [] [] [] [] [] [] [] []))
    by (vm_compute; reflexivity).
  assert (H0 : 0 <= 0) by lia.
  split; [exact H|]. split; [exact H0|].
  destruct (empty_prefield Ex.cyclic_nav 8 Ex.cyclic_hit "french" _ H H0)
    as (_ & _ & store & Hs & _ & _ & _ & _ & _ & Hp).
  exists store. split; [exact Hs | exact Hp].
Defined.

(** X8. The script overwrites what it assigns and is idempotent on the
    store: run again on the store it returned it returns that store, and
    whatever the store held before the call, the entries under the twelve
    keys come out the same (stale rank entries are reset). *)
Theorem script_idempotent an depth hit lang s1 :
  script an depth hit lang = Returned s1 ->
  script an depth (mkHit (toks hit) (kws hit) s1) lang = Returned s1 /\
  forall st, exists s2,
    script an depth (mkHit (toks hit) (kws hit) st) lang = Returned s2 /\
    forall key, key ∈ written_keys -> s2 !! key = s1 !! key.
Proof.
  unfold script. simpl. destruct (locate _ _ _ _ _) as [e|a]; [done|].
  intros [= <-]. split.
  - by rewrite write_tags_idempotent.
  - intros st. eexists. split; [done|]. intros key Hk. by apply write_tags_overwrites.
Qed.

Lemma script_idempotent_witness :
  script Ex.hier_nav 8 Ex.hier_hit "french"
  = Returned (write_tags Ex.hier_nav Ex.hier_toks "french" Ex.hier_analysis ∅) /\
  script Ex.hier_nav 8
    (mkHit (toks Ex.hier_hit) (kws Ex.hier_hit)
       (write_tags Ex.hier_nav Ex.hier_toks "french" Ex.hier_analysis ∅)) "french"
  = Returned (write_tags Ex.hier_nav Ex.hier_toks "french" Ex.hier_analysis ∅).
Proof.
  assert (H : script Ex.hier_nav 8 Ex.hier_hit "french"
              = Returned (write_tags Ex.hier_nav Ex.hier_toks "french" Ex.hier_analysis ∅))
    by (vm_compute; reflexivity).
  split; [exact H|].
  exact (proj1 (script_idempotent Ex.hier_nav 8 Ex.hier_hit "french" _ H)).
Defined.

(** X9. The call ends in an index error exactly when the clause has no
    keyword; the store is then untouched. *)
Theorem index_error_iff an depth hit lang :
  (exists store, script an depth hit lang = Raised IndexError store) <-> kws hit = [].
Proof.
  split.
  - intros [store H]. unfold script in H.
    destruct (locate _ _ _ _ _) as [e|a] eqn:Hloc; [|done]. injection H as -> _.
    unfold locate, bind in Hloc. destruct (kws hit) as [|T kws]; [done|]. exfalso.
    destruct (get_ix_from_tok (toks hit) T) as [e|T_ix] eqn:HT.
    { apply get_ix_from_tok_inl in HT. congruence. }
    destruct (get_head an (toks hit) T) as [head|]; [|done].
    destruct (get_ix_from_tok (toks hit) head) as [e|head_ix] eqn:Hh.
    { apply get_ix_from_tok_inl in Hh. congruence. }
    destruct (get_w1 an (toks hit) head) as [e|w1] eqn:Hw.
    { apply get_w1_inl in Hw. congruence. }
    destruct (get_ix_from_tok (toks hit) w1) as [e|w1_ix] eqn:Hwi.
    { apply get_ix_from_tok_inl in Hwi. congruence. }
    destruct (comprehension (is_prefield_clitic _ _ _ _ _) _) as [e|cl] eqn:Hcl.
    { apply comprehension_inl in Hcl as [-> _]. congruence. }
    destruct (comprehension (is_c_element _ _ _ _ _ _ _) _) as [e|cs] eqn:Hcs; [|done].
    apply comprehension_inl in Hcs as [-> _]. congruence.
  - intros Hk. exists (tags hit). unfold script, locate. by rewrite Hk.
Qed.

(** ** Patterns with finitely many words *)

Module ReWords.
Import Re.

Lemma matches_cls cs s : matches (Cls cs) s <-> exists c, In c cs /\ s = String c "".
Proof.
  split; [inversion 1; subst; eauto | intros (c & Hin & ->); by constructor].
Qed.

Lemma matches_opt r s : matches (Opt r) s <-> s = "" \/ matches r s.
Proof.
  split; [inversion 1; subst; auto | intros [->|H]; [constructor | by constructor]].
Qed.

Lemma words_matches r : star_free r = true -> forall s, matches r s <-> In s (words r).
Proof.
  induction r as [| |c|cs| |r1 IH1 r2 IH2|r1 IH1 r2 IH2|r1 IH1|r1 IH1];
    simpl; intros Hsf s; try done.
  - split; [inversion 1 | done].
  - rewrite ReShapes.matches_eps. split; [intros ->; by left | by intros [<-|[]]].
  - rewrite ReShapes.matches_chr. split; [intros ->; by left | by intros [<-|[]]].
  - rewrite matches_cls, in_map_iff. split; intros (c & H1 & H2); eauto.
  - apply andb_true_iff in Hsf as [H1 H2].
    rewrite ReShapes.matches_cat, in_flat_map. split.
    + intros (s1 & s2 & -> & M1 & M2). exists s1. split; [by apply IH1|].
      apply in_map_iff. exists s2. split; [done | by apply IH2].
    + intros (s1 & M1 & (s2 & <- & M2)%in_map_iff).
      exists s1, s2. split; [done|]. split; [by apply IH1 | by apply IH2].
  - apply andb_true_iff in Hsf as [H1 H2].
    rewrite ReShapes.matches_alt, in_app_iff, IH1, IH2 by done. done.
  - rewrite matches_opt, IH1 by done. split; intros [H|H]; auto.
Qed.

Lemma fullmatch_words r s :
  star_free r = true -> fullmatch r s = true <-> In s (words r).
Proof. intros H. by rewrite ReFacts.fullmatch_matches, words_matches. Qed.

(** A check that holds on every word of a pattern holds for every string
    the pattern matches. *)
Lemma fullmatch_forallb r (check : string -> bool) s :
  star_free r = true -> forallb check (words r) = true ->
  fullmatch r s = true -> check s = true.
Proof.
  intros Hsf Hall Hm. apply (fullmatch_words r s Hsf) in Hm.
  rewrite forallb_forall in Hall. by apply Hall.
Qed.

End ReWords.

(** ** The table of adpositions is unambiguous *)

Lemma adps_single s lemma regex :
  In (lemma, regex) Pat.ADPS_FR -> Re.fullmatch regex s = true ->
  List.filter (entry_matches s) Pat.ADPS_FR = [(lemma, regex)].
Proof.
  intros Hin Hm.
  assert (Hcheck : forall r,
    Re.star_free r = true ->
    forallb (fun w => match List.filter (entry_matches w) Pat.ADPS_FR with
                      | [_] => true
                      | _ => false
                      end) (Re.words r) = true ->
    Re.fullmatch r s = true ->
    exists e, List.filter (entry_matches s) Pat.ADPS_FR = [e]).
  { intros r Hsf Hall Hr.
    pose proof (ReWords.fullmatch_forallb r _ s Hsf Hall Hr) as H. cbv beta in H.
    destruct (List.filter (entry_matches s) Pat.ADPS_FR) as [|e [|]]; try done. eauto. }
  assert (He : exists e, List.filter (entry_matches s) Pat.ADPS_FR = [e]).
  { specialize (Hcheck regex). simpl in Hin.
    repeat (destruct Hin as [Heq|Hin];
            [injection Heq as <- <-;
             apply Hcheck; [reflexivity | vm_compute; reflexivity | exact Hm]|]).
    done. }
  destruct He as [e He]. rewrite He. f_equal.
  assert (Hf : In (lemma, regex) (List.filter (entry_matches s) Pat.ADPS_FR))
    by (apply filter_In; split; [done | exact Hm]).
  rewrite He in Hf. by destruct Hf as [->|[]].
Qed.

(** X10. No spelling matches the patterns of two lemmas of the adposition
    table: at most one entry matches a form, and the lemma the pre-pass
    returns is that of any entry that matches, whatever the order of the
    table. *)
Theorem adps_unambiguous s :
  length (List.filter (entry_matches s) Pat.ADPS_FR) <= 1 /\
  (forall lemma regex,
     In (lemma, regex) Pat.ADPS_FR -> Re.fullmatch regex s = true ->
     adp_lemma Pat.ADPS_FR s = lemma) /\
  ((forall lemma regex, In (lemma, regex) Pat.ADPS_FR -> Re.fullmatch regex s = false) ->
   adp_lemma Pat.ADPS_FR s = "P").
Proof.
  split; [|split].
  - destruct (List.filter (entry_matches s) Pat.ADPS_FR) as [|[lemma regex] l] eqn:Hf;
      [simpl; lia|].
    assert (Hin : In (lemma, regex) (List.filter (entry_matches s) Pat.ADPS_FR))
      by (rewrite Hf; by left).
    apply filter_In in Hin as [Hin Hm].
    rewrite (adps_single s lemma regex Hin Hm) in Hf. injection Hf as <-. simpl. lia.
  - intros lemma regex Hin Hm. pose proof (adps_single s lemma regex Hin Hm) as Hs.
    rewrite adp_lemma_find.
    destruct (find (entry_matches s) Pat.ADPS_FR) as [[l r]|] eqn:Hf.
    + apply find_some in Hf as [Hin' Hm'].
      assert (Hf : In (l, r) (List.filter (entry_matches s) Pat.ADPS_FR))
        by (apply filter_In; by split).
      rewrite Hs in Hf. destruct Hf as [Heq|[]]. by injection Heq as ->.
    + pose proof (find_none _ _ Hf _ Hin) as Hn. unfold entry_matches in Hn.
      simpl in Hn. congruence.
  - intros Hnone. rewrite adp_lemma_find.
    destruct (find (entry_matches s) Pat.ADPS_FR) as [[l r]|] eqn:Hf; [|done].
    apply find_some in Hf as [Hin Hm]. unfold entry_matches in Hm. simpl in Hm.
    by rewrite (Hnone l r Hin) in Hm.
Qed.

(** ** The pronoun rules of the cascade do not overlap *)

Lemma nominative_not_demonstrative s :
  Re.fullmatch Pat.t_prs_nom s = true ->
  Re.fullmatch Pat.t_dem_ce s = false /\ Re.fullmatch Pat.t_dem s = false.
Proof.
  intros H.
  pose proof (ReWords.fullmatch_forallb Pat.t_prs_nom
    (fun w => negb (Re.fullmatch Pat.t_dem_ce w) && negb (Re.fullmatch Pat.t_dem w)) s
    eq_refl ltac:(vm_compute; reflexivity) H) as Hc.
  cbv beta in Hc. apply andb_true_iff in Hc as [H1 H2].
  by rewrite negb_true_iff in H1, H2.
Qed.

Lemma demonstrative_ce_not_other s :
  Re.fullmatch Pat.t_dem_ce s = true -> Re.fullmatch Pat.t_dem s = false.
Proof.
  intros H.
  pose proof (ReWords.fullmatch_forallb Pat.t_dem_ce
    (fun w => negb (Re.fullmatch Pat.t_dem w)) s
    eq_refl ltac:(vm_compute; reflexivity) H) as Hc.
  by apply negb_true_iff in Hc.
Qed.

(** X11. For a pronoun, each of the three special pronoun tags is set
    exactly when the pattern of its own rule matches the case-folded form,
    and the generic pronoun tag exactly when none of the three does: the
    three patterns share no form, so the order of these rules in the
    cascade does not matter. *)
Theorem pronoun_rules toks tok :
  UPOS (tok_at toks tok) = "PRON" ->
  (_tag_form_fr_base toks tok = "NP:PRON:Prs:Nom" <->
   Re.fullmatch Pat.t_prs_nom (Str.lower (form (tok_at toks tok))) = true) /\
  (_tag_form_fr_base toks tok = "NP:PRON:Dem:ce" <->
   Re.fullmatch Pat.t_dem_ce (Str.lower (form (tok_at toks tok))) = true) /\
  (_tag_form_fr_base toks tok = "NP:PRON:Dem" <->
   Re.fullmatch Pat.t_dem (Str.lower (form (tok_at toks tok))) = true) /\
  (_tag_form_fr_base toks tok = "NP:PRON" <->
   Re.fullmatch Pat.t_prs_nom (Str.lower (form (tok_at toks tok))) = false /\
   Re.fullmatch Pat.t_dem_ce (Str.lower (form (tok_at toks tok))) = false /\
   Re.fullmatch Pat.t_dem (Str.lower (form (tok_at toks tok))) = false).
Proof.
  intros Hu. unfold _tag_form_fr_base. rewrite Hu. simpl.
  destruct (Re.fullmatch Pat.t_prs_nom _) eqn:Hn.
  - destruct (nominative_not_demonstrative _ Hn) as [-> ->].
    repeat split; try done; by intros (? & ? & ?).
  - destruct (Re.fullmatch Pat.t_dem_ce _) eqn:Hc.
    + rewrite (demonstrative_ce_not_other _ Hc).
      repeat split; try done; by intros (? & ? & ?).
    + destruct (Re.fullmatch Pat.t_dem _); repeat split; try done;
        by intros (? & ? & ?).
Qed.

Lemma pronoun_rules_witness :
  UPOS (tok_at Ex.nous_toks 0) = "PRON" /\
  (_tag_form_fr_base Ex.nous_toks 0 = "NP:PRON:Prs:Nom" <->
   Re.fullmatch Pat.t_prs_nom (Str.lower (form (tok_at Ex.nous_toks 0))) = true).
Proof.
  split; [reflexivity|].
  exact (proj1 (pronoun_rules Ex.nous_toks 0 eq_refl)).
Defined.

(** ** Clitics and complementizers *)

(** X12. A token that passes the structural gate of the complementizers
    and is a French clitic is never a complementizer: no clitic form
    passes a lexical test of [_is_c_element_fr], so a clitic that depends
    on the head never resets the first loop. *)
Theorem clitic_not_complementizer an toks T head prefield depth depth' tok :
  could_be_c_head an toks T head prefield tok = true ->
  is_prefield_clitic an toks "french" prefield depth tok = Some true ->
  is_c_element an toks "french" T head prefield depth' tok = Some false.
Proof.
  intros Hg Hcl. rewrite is_c_element_unfold. simpl. unfold _is_c_element_fr.
  rewrite Hg. simpl.
  unfold is_prefield_clitic, _is_prefield_clitic_fr in Hcl. simpl in Hcl.
  destruct (could_be_prefield_clitic _ _ _ _ _) as [b|]; [|done].
  destruct (negb b); [done|].
  set (s := Str.lower (form (tok_at toks tok))) in *.
  set (cp := fun w => negb (Re.match_ Pat.c_qu w) && negb (Re.fullmatch Pat.c_cui w)
                      && negb (Re.match_ Pat.c_dont w) && negb (Re.fullmatch Pat.c_ou w)).
  set (ca := fun w => negb (Re.match_ Pat.c_comment w) && negb (Re.match_ Pat.c_combien w)).
  destruct (String.eqb_spec (UPOS (tok_at toks tok)) "PRON") as [Hu|Hu].
  - rewrite Hu. simpl.
    assert (Hc : cp s = true).
    { destruct (Re.fullmatch Pat.cl_pron s) eqn:H1.
      - by apply (ReWords.fullmatch_forallb Pat.cl_pron cp s eq_refl).
      - destruct (negb _ && Re.fullmatch Pat.cl_nous_vous s) eqn:H2; [|done].
        apply andb_true_iff in H2 as [_ H2].
        by apply (ReWords.fullmatch_forallb Pat.cl_nous_vous cp s eq_refl). }
    unfold cp in Hc. rewrite !andb_true_iff, !negb_true_iff in Hc.
    destruct Hc as [[[-> ->] ->] ->]. done.
  - destruct (String.eqb_spec (UPOS (tok_at toks tok)) "ADV") as [Hv|Hv]; [|done].
    rewrite Hv. simpl.
    destruct (Re.fullmatch Pat.cl_adv s) eqn:H1; [|done].
    assert (Hc : ca s = true)
      by (by apply (ReWords.fullmatch_forallb Pat.cl_adv ca s eq_refl)).
    unfold ca in Hc. rewrite !andb_true_iff, !negb_true_iff in Hc.
    destruct Hc as [-> ->]. done.
Qed.

Lemma clitic_not_complementizer_witness :
  could_be_c_head Ex.clitic_nav Ex.clitic_toks 3 3 (slice Ex.clitic_toks 0 3) 1 = true /\
  is_prefield_clitic Ex.clitic_nav Ex.clitic_toks "french" (slice Ex.clitic_toks 0 3) 8 1
  = Some true /\
  is_c_element Ex.clitic_nav Ex.clitic_toks "french" 3 3 (slice Ex.clitic_toks 0 3) 8 1
  = Some false.
Proof.
  assert (H1 : could_be_c_head Ex.clitic_nav Ex.clitic_toks 3 3
                 (slice Ex.clitic_toks 0 3) 1 = true) by reflexivity.
  assert (H2 : is_prefield_clitic Ex.clitic_nav Ex.clitic_toks "french"
                 (slice Ex.clitic_toks 0 3) 8 1 = Some true) by reflexivity.
  split; [exact H1|]. split; [exact H2|].
  exact (clitic_not_complementizer Ex.clitic_nav Ex.clitic_toks 3 3 _ 8 8 1 H1 H2).
Defined.

Lemma match_lit_prefix w s :
  Re.match_ (Re.lit w) s = true <-> exists r, s = w ++ r.
Proof.
  rewrite ReFacts.match_matches. split.
  - intros (s1 & s2 & -> & H%ReShapes.matches_lit). subst. eauto.
  - intros [r ->]. exists w, r. split; [done | by apply ReShapes.matches_lit].
Qed.

(** X13. A possible clitic that is a pronoun of the nous/vous family is a
    clitic exactly when its relation does not begin with [nsubj]: the
    subject pronoun is counted, the object or reflexive one is not. *)
Theorem nous_vous_clitic an toks prefield depth tok :
  UPOS (tok_at toks tok) = "PRON" ->
  Re.fullmatch Pat.cl_nous_vous (Str.lower (form (tok_at toks tok))) = true ->
  could_be_prefield_clitic an toks prefield depth tok = Some true ->
  (is_prefield_clitic an toks "french" prefield depth tok = Some true <->
   ~ exists r, DEPREL (tok_at toks tok) = "nsubj" ++ r) /\
  (is_prefield_clitic an toks "french" prefield depth tok = Some false <->
   exists r, DEPREL (tok_at toks tok) = "nsubj" ++ r).
Proof.
  intros Hu Hm Hc. unfold is_prefield_clitic, _is_prefield_clitic_fr. simpl.
  rewrite Hc, Hu, Hm. simpl.
  assert (Hp : Re.fullmatch Pat.cl_pron (Str.lower (form (tok_at toks tok))) = false).
  { pose proof (ReWords.fullmatch_forallb Pat.cl_nous_vous
      (fun w => negb (Re.fullmatch Pat.cl_pron w)) _
      eq_refl ltac:(vm_compute; reflexivity) Hm) as H.
    by apply negb_true_iff in H. }
  rewrite Hp, andb_true_r.
  pose proof (match_lit_prefix "nsubj" (DEPREL (tok_at toks tok))) as Hn.
  change (Re.lit "nsubj") with Pat.cl_nsubj in Hn.
  destruct (Re.match_ Pat.cl_nsubj (DEPREL (tok_at toks tok))); simpl.
  - split; split; try done.
    + intros H. exfalso. by apply H, Hn.
    + intros _. by apply Hn.
  - split; split; try done.
    + intros _ H%Hn. done.
    + intros H%Hn. done.
Qed.

Lemma nous_vous_clitic_witness :
  UPOS (tok_at Ex.nous_nous_toks 1) = "PRON" /\
  Re.fullmatch Pat.cl_nous_vous (Str.lower (form (tok_at Ex.nous_nous_toks 1))) = true /\
  could_be_prefield_clitic Ex.nous_nous_nav Ex.nous_nous_toks
    (slice Ex.nous_nous_toks 0 2) 8 1 = Some true /\
  (is_prefield_clitic Ex.nous_nous_nav Ex.nous_nous_toks "french"
     (slice Ex.nous_nous_toks 0 2) 8 1 = Some true <->
   ~ exists r, DEPREL (tok_at Ex.nous_nous_toks 1) = "nsubj" ++ r).
Proof.
  assert (H1 : UPOS (tok_at Ex.nous_nous_toks 1) = "PRON") by reflexivity.
  assert (H2 : Re.fullmatch Pat.cl_nous_vous
                 (Str.lower (form (tok_at Ex.nous_nous_toks 1))) = true) by reflexivity.
  assert (H3 : could_be_prefield_clitic Ex.nous_nous_nav Ex.nous_nous_toks
                 (slice Ex.nous_nous_toks 0 2) 8 1 = Some true) by reflexivity.
  split; [exact H1|]. split; [exact H2|]. split; [exact H3|].
  exact (proj1 (nous_vous_clitic Ex.nous_nous_nav Ex.nous_nous_toks _ 8 1 H1 H2 H3)).
Defined.

(** ** The shape of a phrase tag *)

Lemma _tag_form_fr_base_in toks tok : In (_tag_form_fr_base toks tok) base_tags.
Proof.
  unfold _tag_form_fr_base, base_tags.
  repeat match goal with |- context [if ?b then _ else _] => destruct b end;
    simpl; tauto.
Qed.

(** X14. A French phrase tag is one of the eleven tags of the cascade,
    bare, wrapped as [PP[...]], or wrapped as [PP:<lemma>[...]] with a
    lemma of the adposition table; nothing else is ever produced. *)
Theorem tag_form_fr_shape an toks tok :
  exists base,
    In base base_tags /\
    (_tag_form_fr an toks tok = base \/
     _tag_form_fr an toks tok = "PP[" ++ base ++ "]" \/
     exists lemma,
       In lemma (List.map fst Pat.ADPS_FR) /\
       _tag_form_fr an toks tok = "PP:" ++ lemma ++ "[" ++ base ++ "]").
Proof.
  exists (_tag_form_fr_base toks tok). split; [apply _tag_form_fr_base_in|].
  rewrite _tag_form_fr_wrap.
  destruct (find (case_adposition toks) (get_children an tok)) as [c|]; [|by left].
  destruct (find _ Pat.ADPS_FR) as [[lemma regex]|] eqn:Hf; [|by right; left].
  right; right. exists lemma. split; [|done].
  apply find_some in Hf as [Hin _]. apply in_map_iff. by exists (lemma, regex).
Qed.

(** ** Letter case *)

Section LetterCase.

Variable an : Navigator.
Variables toks toks' : list Token.
Variable lang : string.
Hypothesis Hcase : Forall2 same_up_to_case toks toks'.

Lemma case_length : length toks = length toks'.
Proof. by eapply Forall2_length. Qed.

Lemma case_tok_at x : same_up_to_case (tok_at toks x) (tok_at toks' x).
Proof.
  unfold tok_at. apply Forall2_lookup with (i := x) in Hcase.
  destruct Hcase; simpl; [done | by repeat split].
Qed.

Lemma case_UPOS x : UPOS (tok_at toks x) = UPOS (tok_at toks' x).
Proof. apply case_tok_at. Qed.

Lemma case_DEPREL x : DEPREL (tok_at toks x) = DEPREL (tok_at toks' x).
Proof. apply case_tok_at. Qed.

Lemma case_FEATS x : FEATS (tok_at toks x) = FEATS (tok_at toks' x).
Proof. apply case_tok_at. Qed.

Lemma case_form x :
  Str.lower (form (tok_at toks x)) = Str.lower (form (tok_at toks' x)).
Proof. apply case_tok_at. Qed.

Ltac fold_case := rewrite ?case_UPOS, ?case_DEPREL, ?case_FEATS, ?case_form.

Lemma case_get_ix_from_tok tok : get_ix_from_tok toks tok = get_ix_from_tok toks' tok.
Proof. unfold get_ix_from_tok. by rewrite case_length. Qed.

Lemma case_slice a b : slice toks a b = slice toks' a b.
Proof. unfold slice. by rewrite case_length. Qed.

Lemma case_get_head T : get_head an toks T = get_head an toks' T.
Proof. unfold get_head. by fold_case. Qed.

Lemma case_get_w1 tok : get_w1 an toks tok = get_w1 an toks' tok.
Proof.
  unfold get_w1.
  rewrite (list_filter_iff _ (fun x => UPOS (tok_at toks' x) ≠ "PUNCT"))
    by (intros x; by rewrite case_UPOS).
  destruct (filter _ _); [done|]. by rewrite !case_get_ix_from_tok.
Qed.

Lemma case_clitic prefield depth : forall tok,
  could_be_prefield_clitic an toks prefield depth tok
  = could_be_prefield_clitic an toks' prefield depth tok.
Proof.
  induction depth as [|d IH]; intros tok; rewrite !clitic_unfold; fold_case; [done|].
  repeat case_match; try done; by rewrite IH in *; simplify_eq.
Qed.

Lemma case_is_dephead T head tok :
  is_dephead an toks T head tok = is_dephead an toks' T head tok.
Proof. unfold is_dephead. by fold_case. Qed.

Lemma case_could_be_c_head T head prefield tok :
  could_be_c_head an toks T head prefield tok
  = could_be_c_head an toks' T head prefield tok.
Proof. unfold could_be_c_head. rewrite case_is_dephead. by fold_case. Qed.

Lemma case_conjunction T head prefield tok :
  is_prefield_conjunction an toks T head prefield tok
  = is_prefield_conjunction an toks' T head prefield tok.
Proof. unfold is_prefield_conjunction. rewrite case_is_dephead. by fold_case. Qed.

Lemma case_interjection prefield tok :
  is_prefield_interjection toks prefield tok = is_prefield_interjection toks' prefield tok.
Proof. unfold is_prefield_interjection. by fold_case. Qed.

Lemma case_parenthetical T head tok :
  is_parenthetical an toks T head tok = is_parenthetical an toks' T head tok.
Proof. unfold is_parenthetical. rewrite case_is_dephead. by fold_case. Qed.

Lemma case_vocative T head tok :
  is_vocative an toks T head tok = is_vocative an toks' T head tok.
Proof. unfold is_vocative. rewrite case_is_dephead. by fold_case. Qed.

Lemma case_c_element T head prefield depth : forall tok,
  is_c_element an toks lang T head prefield depth tok
  = is_c_element an toks' lang T head prefield depth tok.
Proof.
  induction depth as [|d IH]; intros tok; rewrite !is_c_element_unfold;
    (destruct (String.eqb lang "french"); [|done]);
    unfold _is_c_element_fr; rewrite case_could_be_c_head; fold_case; [done|].
  destruct (could_be_c_head an toks' T head prefield tok); simpl; [done|].
  destruct (get_parent an tok); [|done]. by rewrite IH.
Qed.

Lemma case_prefield_clitic prefield depth tok :
  is_prefield_clitic an toks lang prefield depth tok
  = is_prefield_clitic an toks' lang prefield depth tok.
Proof.
  unfold is_prefield_clitic, _is_prefield_clitic_fr. rewrite case_clitic. by fold_case.
Qed.

Lemma case_tag_p children : _tag_p_form_fr toks children = _tag_p_form_fr toks' children.
Proof. induction children as [|c cs IH]; [done|]. simpl. fold_case. by rewrite IH. Qed.

Lemma case_tag_form tok : tag_form an toks lang tok = tag_form an toks' lang tok.
Proof.
  unfold tag_form, _tag_form_fr, _tag_form_fr_base. rewrite case_tag_p. by fold_case.
Qed.

Lemma case_dephead_loop T head rows : forall i l,
  dephead_loop an toks T head rows i l = dephead_loop an toks' T head rows i l.
Proof.
  induction rows as [|[ij [cl [cj [c tok]]]] rows IH]; intros i l; [done|].
  simpl. rewrite case_is_dephead. apply IH.
Qed.

Lemma case_comprehension (f g : nat -> option bool) l :
  (forall x, f x = g x) -> comprehension f l = comprehension g l.
Proof. intros H. unfold comprehension. by rewrite (mapM_ext f g l H). Qed.

Lemma case_locate depth kws : locate an toks lang depth kws = locate an toks' lang depth kws.
Proof.
  unfold locate, bind. destruct kws as [|T kws]; [done|].
  rewrite case_get_ix_from_tok. destruct (get_ix_from_tok toks' T) as [|T_ix]; [done|].
  rewrite case_get_head. destruct (get_head an toks' T) as [head|]; [|done].
  rewrite case_get_ix_from_tok. destruct (get_ix_from_tok toks' head); [done|].
  rewrite case_get_w1. destruct (get_w1 an toks' head) as [|w1]; [done|].
  rewrite case_get_ix_from_tok. destruct (get_ix_from_tok toks' w1) as [|w1_ix]; [done|].
  rewrite case_slice. set (pf := slice toks' w1_ix T_ix).
  rewrite (case_comprehension (is_prefield_clitic an toks lang pf depth)
             (is_prefield_clitic an toks' lang pf depth))
    by (intros; apply case_prefield_clitic).
  destruct (comprehension (is_prefield_clitic _ _ _ _ _) _) as [|cl]; [done|].
  rewrite (case_comprehension (is_c_element an toks lang T head pf depth)
             (is_c_element an toks' lang T head pf depth))
    by (intros; apply case_c_element).
  destruct (comprehension (is_c_element _ _ _ _ _ _ _) _) as [|cs]; [done|].
  rewrite (list_fmap_ext (is_prefield_interjection toks pf)
             (is_prefield_interjection toks' pf))
    by (intros; apply case_interjection).
  rewrite (list_fmap_ext (is_prefield_conjunction an toks T head pf)
             (is_prefield_conjunction an toks' T head pf))
    by (intros; apply case_conjunction).
  rewrite (list_fmap_ext (is_parenthetical an toks T head) (is_parenthetical an toks' T head))
    by (intros; apply case_parenthetical).
  rewrite (list_fmap_ext (is_vocative an toks T head) (is_vocative an toks' T head))
    by (intros; apply case_vocative).
  by rewrite case_dephead_loop.
Qed.

End LetterCase.

(** X15. The analysis does not look at the letter case of the forms: two
    clauses whose tokens differ at most in the case of their forms get the
    same outcome of the locators (the same error, or the same anchor,
    head, prefield and flags) and the same phrase tags, hence the same four
    rank entries. *)
Theorem case_insensitive an toks toks' lang depth kws :
  Forall2 same_up_to_case toks toks' ->
  locate an toks lang depth kws = locate an toks' lang depth kws /\
  (forall tok, tag_form an toks lang tok = tag_form an toks' lang tok) /\
  (forall a st k,
     1 <= k <= 4 ->
     write_tags an toks lang a st !! rank_key k
     = write_tags an toks' lang a st !! rank_key k).
Proof.
  intros H. split; [by apply case_locate|]. split; [intros; by apply case_tag_form|].
  intros a st k Hk. rewrite !write_tags_rank by done.
  destruct (reverse _ !! (k - 1)); [|done]. by rewrite (case_tag_form an toks toks' lang H).
Qed.

Lemma case_insensitive_witness :
  Forall2 same_up_to_case Ex.hier_toks Ex.hier_caps_toks /\
  locate Ex.hier_nav Ex.hier_toks "french" 8 [3]
  = locate Ex.hier_nav Ex.hier_caps_toks "french" 8 [3] /\
  (forall tok,
     tag_form Ex.hier_nav Ex.hier_toks "french" tok
     = tag_form Ex.hier_nav Ex.hier_caps_toks "french" tok).
Proof.
  assert (H : Forall2 same_up_to_case Ex.hier_toks Ex.hier_caps_toks)
    by (repeat constructor).
  split; [exact H|].
  destruct (case_insensitive Ex.hier_nav Ex.hier_toks Ex.hier_caps_toks "french" 8 [3] H)
    as (H1 & H2 & _).
  split; [exact H1 | exact H2].
Defined.

(** ** The lexicon of the complementizers *)

Lemma match_words r s :
  Re.star_free r = true ->
  Re.match_ r s = true <-> begins_with (Re.words r) s.
Proof.
  intros Hsf. rewrite ReFacts.match_matches. unfold begins_with. split.
  - intros (s1 & s2 & -> & H). exists s1, s2. split; [|done].
    by apply ReWords.words_matches.
  - intros (w & rest & Hin & ->). exists w, rest. split; [done|].
    by apply ReWords.words_matches.
Qed.

(** X16. For a token that passes the structural gate, the French
    complementizer test answers, and it answers true exactly for a
    subordinator, for a pronoun whose case-folded form begins with k or q,
    is cui or cuy, begins with don, dom, dun or dum, or is u, o, ou or
    o-u-grave, and for an adverb whose form begins with a spelling of
    comment or with combien. The tests on the beginning accept any
    continuation (an indefinite such as "quelqu'un" included). *)
Theorem c_element_lexicon an toks T head prefield depth tok :
  could_be_c_head an toks T head prefield tok = true ->
  (exists b, is_c_element an toks "french" T head prefield depth tok = Some b) /\
  (is_c_element an toks "french" T head prefield depth tok = Some true <->
   UPOS (tok_at toks tok) = "SCONJ" \/
   (UPOS (tok_at toks tok) = "PRON" /\
    (begins_with ["k"; "q"; "qu"] (Str.lower (form (tok_at toks tok))) \/
     In (Str.lower (form (tok_at toks tok))) ["cui"; "cuy"] \/
     begins_with ["don"; "dom"; "dun"; "dum"] (Str.lower (form (tok_at toks tok))) \/
     In (Str.lower (form (tok_at toks tok)))
        ["u"; "o"; "ou"; String "o" (String Str.u_grave "")])) \/
   (UPOS (tok_at toks tok) = "ADV" /\
    (begins_with ["comant"; "coment"; "commant"; "comment"]
       (Str.lower (form (tok_at toks tok))) \/
     begins_with ["combien"] (Str.lower (form (tok_at toks tok)))))).
Proof.
  intros Hg. rewrite is_c_element_unfold. simpl. unfold _is_c_element_fr.
  rewrite Hg. simpl. set (s := Str.lower (form (tok_at toks tok))).
  pose proof (match_words Pat.c_qu s eq_refl) as H1.
  pose proof (ReWords.fullmatch_words Pat.c_cui s eq_refl) as H2.
  pose proof (match_words Pat.c_dont s eq_refl) as H3.
  pose proof (ReWords.fullmatch_words Pat.c_ou s eq_refl) as H4.
  pose proof (match_words Pat.c_comment s eq_refl) as H5.
  pose proof (match_words Pat.c_combien s eq_refl) as H6.
  change (Re.words Pat.c_qu) with ["k"; "q"; "qu"] in H1.
  change (Re.words Pat.c_cui) with ["cui"; "cuy"] in H2.
  change (Re.words Pat.c_dont) with ["don"; "dom"; "dun"; "dum"] in H3.
  change (Re.words Pat.c_ou) with ["u"; "o"; "ou"; String "o" (String Str.u_grave "")] in H4.
  change (Re.words Pat.c_comment) with ["comant"; "coment"; "commant"; "comment"] in H5.
  change (Re.words Pat.c_combien) with ["combien"] in H6.
  destruct (String.eqb_spec (UPOS (tok_at toks tok)) "SCONJ") as [Hs|Hs].
  { split; [eauto|]. split; [by left | done]. }
  destruct (String.eqb_spec (UPOS (tok_at toks tok)) "PRON") as [Hp|Hp].
  { split; [repeat case_match; eauto|]. split.
    - intros H. right; left. split; [done|].
      destruct (Re.match_ Pat.c_qu s); [left; by apply H1|].
      destruct (Re.fullmatch Pat.c_cui s); [right; left; by apply H2|].
      destruct (Re.match_ Pat.c_dont s); [right; right; left; by apply H3|].
      destruct (Re.fullmatch Pat.c_ou s); [right; right; right; by apply H4|done].
    - intros [H|[[_ H]|[H _]]]; [done| |congruence].
      destruct H as [H%H1|[H%H2|[H%H3|H%H4]]]; rewrite H; try done;
        repeat case_match; done. }
  destruct (String.eqb_spec (UPOS (tok_at toks tok)) "ADV") as [Ha|Ha].
  { split; [repeat case_match; eauto|]. split.
    - intros H. right; right. split; [done|].
      destruct (Re.match_ Pat.c_comment s); [left; by apply H5|].
      destruct (Re.match_ Pat.c_combien s); [right; by apply H6|done].
    - intros [H|[[H _]|[_ H]]]; [done|congruence|].
      destruct H as [H%H5|H%H6]; rewrite H; try done; repeat case_match; done. }
  split; [eauto|]. split; [done|]. intros [H|[[H _]|[H _]]]; done.
Qed.

Lemma c_element_lexicon_witness :
  could_be_c_head Ex.quelqu_un_nav Ex.quelqu_un_toks 1 1 (slice Ex.quelqu_un_toks 0 1) 0 = true /\
  (is_c_element Ex.quelqu_un_nav Ex.quelqu_un_toks "french" 1 1
     (slice Ex.quelqu_un_toks 0 1) 8 0 = Some true <->
   UPOS (tok_at Ex.quelqu_un_toks 0) = "SCONJ" \/
   (UPOS (tok_at Ex.quelqu_un_toks 0) = "PRON" /\
    (begins_with ["k"; "q"; "qu"] (Str.lower (form (tok_at Ex.quelqu_un_toks 0))) \/
     In (Str.lower (form (tok_at Ex.quelqu_un_toks 0))) ["cui"; "cuy"] \/
     begins_with ["don"; "dom"; "dun"; "dum"] (Str.lower (form (tok_at Ex.quelqu_un_toks 0))) \/
     In (Str.lower (form (tok_at Ex.quelqu_un_toks 0)))
        ["u"; "o"; "ou"; String "o" (String Str.u_grave "")])) \/
   (UPOS (tok_at Ex.quelqu_un_toks 0) = "ADV" /\
    (begins_with ["comant"; "coment"; "commant"; "comment"]
       (Str.lower (form (tok_at Ex.quelqu_un_toks 0))) \/
     begins_with ["combien"] (Str.lower (form (tok_at Ex.quelqu_un_toks 0)))))).
Proof.
  assert (H : could_be_c_head Ex.quelqu_un_nav Ex.quelqu_un_toks 1 1
                (slice Ex.quelqu_un_toks 0 1) 0 = true) by reflexivity.
  split; [exact H|].
  exact (proj2 (c_element_lexicon Ex.quelqu_un_nav Ex.quelqu_un_toks 1 1 _ 8 0 H)).
Defined.

(** The indefinite pronoun of the example is taken for a complementizer,
    and nothing of that clause is counted. *)
Example quelqu_un_is_c :
  is_c_element Ex.quelqu_un_nav Ex.quelqu_un_toks "french" 1 1
    (slice Ex.quelqu_un_toks 0 1) 8 0 = Some true.
Proof. reflexivity. Qed.

(** ** Finite verbs *)

Lemma prefix_iff sub : forall s,
  String.prefix sub s = true <-> exists post, s = sub ++ post.
Proof.
  induction sub as [|c sub IH]; intros s.
  - split; [intros _; by exists s | intros _; by destruct s].
  - destruct s as [|d s]; simpl; [split; [done | intros [post H]; discriminate H]|].
    destruct (ascii_dec c d) as [->|Hne].
    + rewrite IH. split; intros [post H]; exists post.
      * simpl. by rewrite H.
      * simpl in H. by injection H.
    + split; [done | intros [post H]; simpl in H; by injection H].
Qed.

Lemma contains_iff sub : forall s,
  Str.contains sub s = true <-> exists pre post, s = pre ++ sub ++ post.
Proof.
  induction s as [|c s IH].
  - change (Str.contains sub "") with (String.prefix sub "" || false).
    rewrite orb_true_iff, prefix_iff. split.
    + intros [[post H]|H]; [by exists "", post | done].
    + intros (pre & post & H). left. symmetry in H.
      apply ReFacts.append_nil_inv in H as [-> H]. by exists post.
  - change (Str.contains sub (String c s))
      with (String.prefix sub (String c s) || Str.contains sub s).
    rewrite orb_true_iff, prefix_iff, IH. split.
    + intros [[post H]|(pre & post & H)]; [by exists "", post|].
      exists (String c pre), post. simpl. by rewrite H.
    + intros (pre & post & H). destruct pre as [|d pre]; simpl in H.
      * left. by exists post.
      * injection H as -> ->. right. by exists pre, post.
Qed.

(** X17. A verb is tagged [TP] exactly when its feature string holds
    [VerbForm=Fin] somewhere, and [VP] exactly when it does not. *)
Theorem verb_finiteness toks tok :
  UPOS (tok_at toks tok) = "VERB" ->
  (_tag_form_fr_base toks tok = "TP" <->
   exists pre post, FEATS (tok_at toks tok) = pre ++ "VerbForm=Fin" ++ post) /\
  (_tag_form_fr_base toks tok = "VP" <->
   ~ exists pre post, FEATS (tok_at toks tok) = pre ++ "VerbForm=Fin" ++ post).
Proof.
  intros Hu. unfold _tag_form_fr_base. rewrite Hu. simpl.
  pose proof (contains_iff "VerbForm=Fin" (FEATS (tok_at toks tok))) as Hc.
  destruct (Str.contains "VerbForm=Fin" (FEATS (tok_at toks tok))).
  - split; split; try done; [intros _; by apply Hc | intros H; exfalso; by apply H, Hc].
  - split; split; try done; [intros H%Hc; done | intros _ H%Hc; done].
Qed.

Lemma verb_finiteness_witness :
  UPOS (tok_at Ex.et_toks 3) = "VERB" /\
  (_tag_form_fr_base Ex.et_toks 3 = "TP" <->
   exists pre post, FEATS (tok_at Ex.et_toks 3) = pre ++ "VerbForm=Fin" ++ post).
Proof.
  split; [reflexivity|].
  exact (proj1 (verb_finiteness Ex.et_toks 3 eq_refl)).
Defined.

(** ** Instances on the example clauses *)

Lemma get_head_cases_witness :
  (DEPREL (tok_at Ex.hier_toks 3) = "cop" \/
   exists r, DEPREL (tok_at Ex.hier_toks 3) = "aux" ++ r /\
             Forall (fun c => c ≠ Re.newline) (list_ascii_of_string r)) /\
  get_head Ex.hier_nav Ex.hier_toks 3 = get_parent Ex.hier_nav 3.
Proof.
  assert (H : DEPREL (tok_at Ex.hier_toks 3) = "cop" \/
              exists r, DEPREL (tok_at Ex.hier_toks 3) = "aux" ++ r /\
                        Forall (fun c => c ≠ Re.newline) (list_ascii_of_string r)).
  { right. exists "". split; [reflexivity | constructor]. }
  split; [exact H|].
  exact (proj1 (get_head_cases Ex.hier_nav Ex.hier_toks 3) H).
Defined.

Lemma adps_unambiguous_witness :
  In ("de", Re.alts [Re.cats [Re.Chr "d"; Re.cls "eu'"];
                     Re.cats [Re.lit "de"; Re.Opt (Re.Chr "l"); Re.Opt (Re.Chr "s")];
                     Re.lit "dou"]) Pat.ADPS_FR /\
  adp_lemma Pat.ADPS_FR "des" = "de".
Proof.
  assert (H : In ("de", Re.alts [Re.cats [Re.Chr "d"; Re.cls "eu'"];
                                 Re.cats [Re.lit "de"; Re.Opt (Re.Chr "l");
                                          Re.Opt (Re.Chr "s")];
                                 Re.lit "dou"]) Pat.ADPS_FR)
    by (right; left; reflexivity).
  split; [exact H|].
  exact (proj1 (proj2 (adps_unambiguous "des")) _ _ H eq_refl).
Defined.

Lemma c_element_origin_witness :
  could_be_c_head Ex.quelqu_un_nav Ex.quelqu_un_toks 1 1 (slice Ex.quelqu_un_toks 0 1) 0 = true /\
  in_prefield (slice Ex.quelqu_un_toks 0 1) 0 = true /\
  is_dephead Ex.quelqu_un_nav Ex.quelqu_un_toks 1 1 0 = true.
Proof.
  assert (H : could_be_c_head Ex.quelqu_un_nav Ex.quelqu_un_toks 1 1
                (slice Ex.quelqu_un_toks 0 1) 0 = true) by reflexivity.
  split; [exact H|].
  destruct (proj2 (c_element_origin Ex.quelqu_un_nav Ex.quelqu_un_toks 1 1
                     (slice Ex.quelqu_un_toks 0 1) 0 0) 0 H) as (H1 & H2 & _).
  split; [exact H1 | exact H2].
Defined.
